(** * Owning handles with small-buffer optimisation

    A shallow embedding of [lib::Handle] (HandleImpl.v3.h, HandleImpl.v2.h),
    [pdg::Survival] (Survival.hpp) and [lib::PrintableValueProtocol]
    (PrintableValueProtocol.hpp).

    The C++ code works on objects that live at addresses: a [Handle] is a
    raw buffer [storage_] that is read back either as a [Body] or as a
    [std::unique_ptr<Body>], and the special member functions receive
    [this] and [other] by reference.  The embedding therefore keeps a store
    of live handle objects and a free store of dynamically allocated
    bodies, and every member function is a state transformer whose result is
    a normal return, a thrown exception, a failed [assert] or undefined
    behaviour.  A member function of a class template is compiled when it
    is used, for the body type and the size at hand; where that instance
    breaks a rule of the language the call has no run at all, and its
    result says so. *)

From Stdlib Require Import NArith ZArith List Floats.
From stdpp Require Import base option strings gmap list.

Set Default Proof Using "Type".

(** ** Machine model *)

Module Mem.

(** Addresses of [Handle] objects and of bodies in the free store. *)
Abbreviation addr := positive.
Abbreviation loc := positive.

(** [sizeof(T)] and [alignof(T)]. *)
Record layout := Layout { sizeof : N; alignof : N }.

(** Observable steps: raw memory obtained from and returned to the free
    store, and completed calls of the body's special member functions. *)
Inductive event :=
| EvNew (l : loc)
| EvDelete (l : loc)
| EvDefault
| EvCopy
| EvMove
| EvMoveAssign
| EvDestroy.

#[global] Instance event_eq_dec : EqDecision event.
Proof. solve_decision. Defined.

Definition is_new (e : event) : bool :=
  match e with EvNew _ => true | _ => false end.
Definition is_delete (e : event) : bool :=
  match e with EvDelete _ => true | _ => false end.

(** Number of allocations and of deallocations in a trace. *)
Definition allocations (t : list event) : nat := length (List.filter is_new t).
Definition deallocations (t : list event) : nat := length (List.filter is_delete t).

(** The locations that a trace leaves allocated and not yet given back,
    when it starts with the locations [live] outstanding; [None] when the
    trace allocates a location that is outstanding, or gives back one that
    is not. *)
Fixpoint outstanding (t : list event) (live : gset loc) : option (gset loc) :=
  match t with
  | [] => Some live
  | EvNew l :: t =>
      if decide (l ∈ live) then None else outstanding t ({[l]} ∪ live)
  | EvDelete l :: t =>
      if decide (l ∈ live) then outstanding t (live ∖ {[l]}) else None
  | _ :: t => outstanding t live
  end.

(** What the translation unit takes from the implementation: the layout of
    [void*] and of [std::unique_ptr<Body>], the default alignment of
    [std::aligned_storage_t<Len>], whether [assert] is compiled out, and
    when [operator new] runs out of memory (decided on the history so
    far). *)
Record platform := Platform {
  void_ptr : layout;
  unique_ptr : layout;
  aligned_storage_align : N -> N;
  NDEBUG : bool;
  out_of_memory : list event -> bool
}.

(** The body type: its layout and its special member functions, on the
    values of the type.  [Body()] and [Body(Body const&)] may throw
    ([None]); the move operations are [noexcept] and say what value the
    source is left with.  [Body_move_assign_self] is [x = std::move(x)]. *)
Record body_type := BodyType {
  Body : Type;
  Body_layout : layout;
  Body_default : option Body;
  Body_copy : Body -> option Body;
  Body_move : Body -> Body * Body;
  Body_move_assign : Body -> Body -> Body * Body;
  Body_move_assign_self : Body -> Body
}.

Inductive exn := bad_alloc | body_exception.

(** A [body_type const*]: null, the address of a handle's buffer, or a
    body in the free store. *)
Inductive ptr :=
| PNull
| PInPlace (a : addr)
| PHeap (l : loc).

#[global] Instance ptr_eq_dec : EqDecision ptr.
Proof. solve_decision. Defined.

(** The contents of [storage_]: a body constructed in place, or a
    [std::unique_ptr<Body>] (the pointer it owns, [None] when null). *)
Inductive storage (B : body_type) :=
| InPlace (b : Body B)
| Owner (p : option loc).
Arguments InPlace {B} b.
Arguments Owner {B} p.

(** Live handle objects, live bodies of the free store, and the trace. *)
Record state (B : body_type) := State {
  objects : gmap addr (storage B);
  heap : gmap loc (Body B);
  trace : list event
}.
Arguments State {B} objects heap trace.
Arguments objects {B} s.
Arguments heap {B} s.
Arguments trace {B} s.

(** How a call ends.  [Ill_formed]: the instance of the member function
    does not compile, so no program contains the call. *)
Inductive outcome (B : body_type) (A : Type) :=
| Returns (a : A) (s : state B)
| Throws (e : exn) (s : state B)
| Aborts
| Undefined
| Ill_formed.
Arguments Returns {B A} a s.
Arguments Throws {B A} e s.
Arguments Aborts {B A}.
Arguments Undefined {B A}.
Arguments Ill_formed {B A}.

Definition M (B : body_type) (A : Type) : Type := state B -> outcome B A.

#[global] Instance M_ret {B} : MRet (M B) := fun A a s => Returns a s.

#[global] Instance M_bind {B} : MBind (M B) := fun A C k m s =>
  match m s with
  | Returns a s' => k a s'
  | Throws e s' => Throws e s'
  | Aborts => Aborts
  | Undefined => Undefined
  | Ill_formed => Ill_formed
  end.

Definition throw {B A} (e : exn) : M B A := fun s => Throws e s.
Definition undefined {B A} : M B A := fun _ => Undefined.
Definition ill_formed {B A} : M B A := fun _ => Ill_formed.

(** Whether the object an expression designates is const where the
    expression is written: [other] in [Handle(Handle const& other)] and
    [*this] in a const member function are, [other] in
    [Handle(Handle&& other)] is not. *)
Inductive access := Mutable | Const.

Definition log {B} (e : event) : M B unit :=
  fun s => Returns tt (State (objects s) (heap s) (trace s ++ [e])).

Section Machine.
Context (P : platform) (B : body_type).

(** [assert(c)]: checked unless [NDEBUG]. *)
Definition assert (c : bool) : M B unit :=
  fun s => if NDEBUG P || c then Returns tt s else Aborts.

(** [*std::launder(reinterpret_cast<T*>(&h.storage_))]: the buffer of the
    handle at [h], seen as a [T].  [from] is the access to [h] where the
    cast is written, so [&h.storage_] is a pointer to const when it is
    [Const]; [to] says whether [T] is const.  A [reinterpret_cast] shall
    not cast away constness: from a pointer to const to a pointer to
    non-const it is ill-formed. *)
Definition reinterpret_cast (from to : access) (h : addr) : M B addr :=
  match from, to with
  | Const, Mutable => ill_formed
  | _, _ => mret h
  end.

(** The pointer stored in the [std::unique_ptr<Body>] at [h], read. *)
Definition as_unique_ptr (h : addr) : M B (option loc) :=
  fun s => match objects s !! h with
           | Some (Owner p) => Returns p s
           | _ => Undefined
           end.

(** The stored pointer of the [unique_ptr] in [h] is overwritten. *)
Definition set_unique_ptr (h : addr) (p : option loc) : M B unit :=
  fun s => match objects s !! h with
           | Some (Owner _) =>
               Returns tt (State (<[h := Owner p]> (objects s)) (heap s) (trace s))
           | _ => Undefined
           end.

(** [::new (&storage_) T(...)]: the buffer at [h] now holds [v]. *)
Definition placement_new (h : addr) (v : storage B) : M B unit :=
  fun s => Returns tt (State (<[h := v]> (objects s)) (heap s) (trace s)).

(** The lifetime of the handle at [h] ends. *)
Definition end_lifetime (h : addr) : M B unit :=
  fun s => Returns tt (State (delete h (objects s)) (heap s) (trace s)).

(** A local variable of type [Handle]: an address no live handle has. *)
Definition alloca : M B addr :=
  fun s => Returns (fresh (dom (objects s))) s.

(** Reading and writing a body through a pointer. *)
Definition load (p : ptr) : M B (Body B) :=
  fun s => match p with
           | PNull => Undefined
           | PInPlace a =>
               match objects s !! a with
               | Some (InPlace b) => Returns b s
               | _ => Undefined
               end
           | PHeap l =>
               match heap s !! l with
               | Some b => Returns b s
               | None => Undefined
               end
           end.

Definition store (p : ptr) (b : Body B) : M B unit :=
  fun s => match p with
           | PNull => Undefined
           | PInPlace a =>
               match objects s !! a with
               | Some (InPlace _) =>
                   Returns tt (State (<[a := InPlace b]> (objects s)) (heap s) (trace s))
               | _ => Undefined
               end
           | PHeap l =>
               match heap s !! l with
               | Some _ =>
                   Returns tt (State (objects s) (<[l := b]> (heap s)) (trace s))
               | None => Undefined
               end
           end.

(** The body's special member functions, called on objects. *)
Definition construct_default : M B (Body B) :=
  match Body_default B with
  | Some b => log EvDefault ;; mret b
  | None => throw body_exception
  end.

Definition construct_copy (src : ptr) : M B (Body B) :=
  b ← load src;
  match Body_copy B b with
  | Some b' => log EvCopy ;; mret b'
  | None => throw body_exception
  end.

Definition construct_move (src : ptr) : M B (Body B) :=
  b ← load src;
  store src (Body_move B b).2 ;;
  log EvMove ;;
  mret (Body_move B b).1.

Definition assign_move (dst src : ptr) : M B unit :=
  if decide (dst = src) then
    b ← load dst;
    store dst (Body_move_assign_self B b) ;;
    log EvMoveAssign
  else
    d ← load dst;
    r ← load src;
    store dst (Body_move_assign B d r).1 ;;
    store src (Body_move_assign B d r).2 ;;
    log EvMoveAssign.

Definition destroy (p : ptr) : M B unit :=
  load p ;; log EvDestroy.

(** [new Body(args)]: memory from [operator new] (which throws
    [std::bad_alloc] when there is none), then the constructor; the memory
    is given back when the constructor throws. *)
Definition operator_new : M B loc :=
  fun s => if out_of_memory P (trace s) then Throws bad_alloc s
           else let l := fresh (dom (heap s)) in
                Returns l (State (objects s) (heap s) (trace s ++ [EvNew l])).

(** The constructor runs on the memory at [l]; when it throws, the memory
    goes back to the free store and the exception propagates. *)
Definition construct_at (l : loc) (ctor : M B (Body B)) : M B loc :=
  fun s => match ctor s with
           | Returns b s' =>
               Returns l (State (objects s') (<[l := b]> (heap s')) (trace s'))
           | Throws e s' =>
               Throws e (State (objects s') (heap s') (trace s' ++ [EvDelete l]))
           | Aborts => Aborts
           | Undefined => Undefined
           | Ill_formed => Ill_formed
           end.

Definition new_ (ctor : M B (Body B)) : M B loc :=
  l ← operator_new;
  construct_at l ctor.

(** [delete p] for a non-null [p]: the destructor, then [operator delete]. *)
Definition operator_delete (l : loc) : M B unit :=
  fun s => Returns tt (State (objects s) (delete l (heap s)) (trace s ++ [EvDelete l])).

Definition delete_ (l : loc) : M B unit :=
  destroy (PHeap l) ;;
  operator_delete l.

(** [std::unique_ptr<Body>], after its specification in the C++ standard:
    [release] nulls the stored pointer and returns the old one; [reset(p)]
    stores [p] and then deletes the old pointee if there was one; move
    assignment is [reset(u.release())]; the move constructor takes the
    pointer [u.release()]; [get] returns the stored pointer. *)
Definition unique_ptr_release (u : addr) : M B (option loc) :=
  p ← as_unique_ptr u;
  set_unique_ptr u None ;;
  mret p.

Definition unique_ptr_reset (u : addr) (p : option loc) : M B unit :=
  old ← as_unique_ptr u;
  set_unique_ptr u p ;;
  match old with
  | Some l => delete_ l
  | None => mret tt
  end.

Definition unique_ptr_move_assign (dst src : addr) : M B unit :=
  p ← unique_ptr_release src;
  unique_ptr_reset dst p.

Definition unique_ptr_move_ctor (dst src : addr) : M B unit :=
  p ← unique_ptr_release src;
  placement_new dst (Owner p).

Definition unique_ptr_get (p : option loc) : ptr :=
  match p with
  | Some l => PHeap l
  | None => PNull
  end.

Definition make_unique_default : M B loc := new_ construct_default.
Definition make_unique_copy (src : ptr) : M B loc := new_ (construct_copy src).

(** [*p] as an lvalue: forming a reference through a null pointer is
    undefined. *)
Definition deref (p : ptr) : M B ptr :=
  match p with
  | PNull => undefined
  | _ => mret p
  end.

End Machine.
End Mem.

(** ** [lib::Handle<Body, Size>] (HandleImpl.v3.h) *)

Module V3.
Import Mem.

(** [fits<T, Size>]. *)
Definition fits (P : platform) (T : layout) (Size : N) : bool :=
  (sizeof T <=? Size)%N && (alignof T <=? aligned_storage_align P Size)%N.

(** The default [Size]: four times the size of [void*]. *)
Definition default_Size (P : platform) : N := 4 * sizeof (void_ptr P).

(** The two ways the buffer is used. *)
Inductive representation := Inline | Indirect.

Definition is_in_place {B} (v : storage B) : bool :=
  match v with InPlace _ => true | Owner _ => false end.

Section Handle.
Context (P : platform) (B : body_type) (Size : N).

(** The [static_assert] of the class, and the one in the dynamic branch of
    the member functions that store a [BodyPtr] (a discarded
    [if constexpr] branch is not instantiated).  [static_asserts] says
    that these assertions hold, and no more: whether the body of a member
    function is well-formed shows in the outcome of its call. *)
Definition Size_static_assert : bool :=
  (sizeof (void_ptr P) <=? Size)%N.

Definition BodyPtr_static_assert : bool :=
  if fits P (Body_layout B) Size then true else fits P (unique_ptr P) Size.

Definition static_asserts : bool :=
  Size_static_assert && BodyPtr_static_assert.

Definition representation_of : representation :=
  if fits P (Body_layout B) Size then Inline else Indirect.

(** [operator->() const]: [*this] is const, so [&storage_] is a pointer
    to const; the first branch casts it to [body_type const*], the second
    to [std::unique_ptr<Body>*]. *)
Definition operator_arrow (this : addr) : M B ptr :=
  if fits P (Body_layout B) Size then
    p ← reinterpret_cast B Const Const this;
    mret (PInPlace p)
  else
    u ← reinterpret_cast B Const Mutable this;
    result ← as_unique_ptr B u;
    assert P B (bool_decide (result ≠ None)) ;;
    mret (unique_ptr_get result).

(** [operator->()]: the const overload, then a [const_cast]. *)
Definition operator_arrow_mut (this : addr) : M B ptr :=
  const_ptr ← operator_arrow this;
  mret const_ptr.

(** [::body(handle)]: [*(handle.operator->())]. *)
Definition body (handle : addr) : M B ptr :=
  p ← operator_arrow handle;
  deref B p.

(** [Handle()]. *)
Definition Handle_ctor (this : addr) : M B unit :=
  if fits P (Body_layout B) Size then
    b ← construct_default B;
    placement_new B this (InPlace b)
  else
    p ← make_unique_default P B;
    placement_new B this (Owner (Some p)).

(** [Handle(Handle const& other)]: in the second branch [src_p] is
    [other.storage_], which is const, cast to [BodyPtr*]. *)
Definition Handle_copy_ctor (this other : addr) : M B unit :=
  if fits P (Body_layout B) Size then
    r ← body other;
    b ← construct_copy B r;
    placement_new B this (InPlace b)
  else
    src_p ← reinterpret_cast B Const Mutable other;
    p ← as_unique_ptr B src_p;
    if bool_decide (p ≠ None) then
      r ← body other;
      p ← make_unique_copy P B r;
      placement_new B this (Owner (Some p))
    else
      placement_new B this (Owner None).

(** [Handle(Handle&& other) noexcept]. *)
Definition Handle_move_ctor (this other : addr) : M B unit :=
  if fits P (Body_layout B) Size then
    r ← body other;
    b ← construct_move B r;
    placement_new B this (InPlace b)
  else
    src_p ← reinterpret_cast B Mutable Mutable other;
    unique_ptr_move_ctor B this src_p.

(** [~Handle() noexcept]; afterwards the handle is no longer live. *)
Definition Handle_dtor (this : addr) : M B unit :=
  (if fits P (Body_layout B) Size then
     r ← body this;
     destroy B r
   else
     p ← reinterpret_cast B Mutable Mutable this;
     unique_ptr_reset B p None) ;;
  end_lifetime B this.

(** [operator=(Handle&& other) noexcept]. *)
Definition Handle_move_assign (this other : addr) : M B unit :=
  if fits P (Body_layout B) Size then
    src ← body other;
    dst ← body this;
    assign_move B dst src
  else
    src_p ← reinterpret_cast B Mutable Mutable other;
    dst_p ← reinterpret_cast B Mutable Mutable this;
    unique_ptr_move_assign B dst_p src_p.

(** [operator=(Handle const& other)]: [tmp] is a local handle, destroyed
    when the function returns. *)
Definition Handle_copy_assign (this other : addr) : M B unit :=
  tmp ← alloca B;
  Handle_copy_ctor tmp other ;;
  Handle_move_assign this tmp ;;
  Handle_dtor tmp.

(** Client code: reading [*h], and changing the body through [h->]. *)
Definition read (h : addr) : M B (Body B) :=
  r ← body h;
  load B r.

Definition mutate (h : addr) (f : Body B -> Body B) : M B unit :=
  p ← operator_arrow_mut h;
  r ← deref B p;
  b ← load B r;
  store B r (f b).

(** The states of a live handle. *)
Definition valid (s : state B) (h : addr) : Prop :=
  if fits P (Body_layout B) Size then
    exists b, objects s !! h = Some (InPlace b)
  else
    exists l b, objects s !! h = Some (Owner (Some l)) /\ heap s !! l = Some b.

Definition null_handle (s : state B) (h : addr) : Prop :=
  objects s !! h = Some (Owner None).

End Handle.
Arguments null_handle {B} s h.
End V3.

(** ** [lib::Handle<Body>] (HandleImpl.v2.h): always a [unique_ptr] *)

Module V2.
Import Mem.

Section Handle.
Context (P : platform) (B : body_type).

(** A constructor body that throws: the members already constructed are
    destroyed and the object never becomes live. *)
Definition unwinding {A} (cleanup : M B unit) (m : M B A) : M B A :=
  fun s => match m s with
           | Throws e s' =>
               match cleanup s' with
               | Returns _ s'' => Throws e s''
               | _ => Undefined
               end
           | r => r
           end.

(** [Handle()]: [handle_{std::make_unique<Body>()}]. *)
Definition Handle_ctor (this : addr) : M B unit :=
  p ← make_unique_default P B;
  placement_new B this (Owner (Some p)).

(** [Handle(Handle const& other)]: [handle_] starts null. *)
Definition Handle_copy_ctor (this other : addr) : M B unit :=
  placement_new B this (Owner None) ;;
  unwinding (end_lifetime B this)
    (o ← as_unique_ptr B other;
     if bool_decide (o ≠ None) then
       r ← deref B (unique_ptr_get o);
       p ← make_unique_copy P B r;
       unique_ptr_reset B this (Some p)
     else
       mret tt).

(** The defaulted move constructor, destructor and move assignment. *)
Definition Handle_move_ctor (this other : addr) : M B unit :=
  unique_ptr_move_ctor B this other.

Definition Handle_dtor (this : addr) : M B unit :=
  unique_ptr_reset B this None ;;
  end_lifetime B this.

Definition Handle_move_assign (this other : addr) : M B unit :=
  unique_ptr_move_assign B this other.

Definition Handle_copy_assign (this other : addr) : M B unit :=
  tmp ← alloca B;
  Handle_copy_ctor tmp other ;;
  Handle_move_assign this tmp ;;
  Handle_dtor tmp.

(** [operator->], both overloads. *)
Definition operator_arrow (this : addr) : M B ptr :=
  handle_ ← as_unique_ptr B this;
  assert P B (bool_decide (handle_ ≠ None)) ;;
  mret (unique_ptr_get handle_).

(** The states of a live handle: null once moved from, or the owner of a
    live body. *)
Definition live (s : state B) (h : addr) : Prop :=
  objects s !! h = Some (Owner None)
  \/ exists l b, objects s !! h = Some (Owner (Some l)) /\ heap s !! l = Some b.

End Handle.
Arguments live {B} s h.
End V2.

(** ** The contract of the handle, in terms of the store *)

Module Contract.
Import Mem.

(** The value semantics the handle expects of its body type: a copy and
    the target of a move hold the value the source had. *)
Definition copy_yields_equal (B : body_type) : Prop :=
  forall b b', Body_copy B b = Some b' -> b' = b.
Definition move_yields_source (B : body_type) : Prop :=
  forall b, (Body_move B b).1 = b.
Definition move_assign_yields_source (B : body_type) : Prop :=
  forall d r, (Body_move_assign B d r).1 = r.

(** An outcome of a call that compiles, and neither a failed assertion
    nor undefined. *)
Definition defined {B A} (o : outcome B A) : Prop :=
  match o with
  | Returns _ _ | Throws _ _ => True
  | Aborts | Undefined | Ill_formed => False
  end.

(** The trace when an operation started in [s] is over. *)
Definition trace_after {B A} (s : state B) (o : outcome B A) : list event :=
  match o with
  | Returns _ s' | Throws _ s' => trace s'
  | Aborts | Undefined | Ill_formed => trace s
  end.

Section Contract.
Context (P : platform) (B : body_type) (Size : N).

(** A live handle of the instantiation: valid, or (indirect only) null. *)
Definition live (s : state B) (h : addr) : Prop :=
  V3.valid P B Size s h
  \/ (V3.fits P (Body_layout B) Size = false /\ V3.null_handle s h).

(** The value a handle holds; a null handle holds none. *)
Definition value (s : state B) (h : addr) : option (Body B) :=
  match objects s !! h with
  | Some (InPlace b) => Some b
  | Some (Owner (Some l)) => heap s !! l
  | _ => None
  end.

(** Two different handles do not own the same body. *)
Definition unshared (s : state B) (h1 h2 : addr) : Prop :=
  forall l, h1 <> h2 ->
            objects s !! h1 = Some (Owner (Some l)) ->
            objects s !! h2 = Some (Owner (Some l)) -> False.

(** [I] holds in the state an operation leaves, however it ends. *)
Definition after {A} (I : state B -> Prop) (o : outcome B A) : Prop :=
  match o with
  | Returns _ s1 | Throws _ s1 => I s1
  | Aborts | Undefined | Ill_formed => True
  end.

Definition preserves {A} (I : state B -> Prop) (m : M B A) : Prop :=
  forall s, I s -> after I (m s).

(** An operation that leaves the state alone when it returns or throws. *)
Definition query {A} (m : M B A) : Prop :=
  forall s, match m s with
            | Returns _ s1 | Throws _ s1 => s1 = s
            | Aborts | Undefined | Ill_formed => True
            end.

(** Every live handle has the representation of the instantiation. *)
Definition uniform (s : state B) : Prop :=
  forall h v, objects s !! h = Some v ->
              V3.is_in_place v = V3.fits P (Body_layout B) Size.

(** Every allocation is matched by a deallocation or by a live body. *)
Definition accounted (s : state B) : Prop :=
  allocations (trace s) = deallocations (trace s) + size (heap s).

(** An operation that changes neither the free store nor its counts. *)
Definition neutral {A} (m : M B A) : Prop :=
  forall s, match m s with
            | Returns _ s1 | Throws _ s1 =>
                heap s1 = heap s
                /\ allocations (trace s1) = allocations (trace s)
                /\ deallocations (trace s1) = deallocations (trace s)
            | Aborts | Undefined | Ill_formed => True
            end.

End Contract.
Arguments value {B} s h.
Arguments unshared {B} s h1 h2.
Arguments after {B A} I o.
Arguments preserves {B A} I m.
Arguments query {B A} m.
Arguments accounted {B} s.
Arguments neutral {B A} m.
End Contract.

(** ** Ownership of the bodies in the free store *)

Module Ownership.
Import Mem.

(** The handle at [h] holds the pointer to the body at [l]. *)
Definition owns {B} (s : state B) (h : addr) (l : loc) : Prop :=
  objects s !! h = Some (Owner (Some l)).

(** No dangling pointer and no shared body: what a handle owns is live,
    and no two handles own the same body. *)
Definition sound {B} (s : state B) : Prop :=
  (forall h l, owns s h l -> is_Some (heap s !! l))
  /\ (forall h1 h2 l, owns s h1 l -> owns s h2 l -> h1 = h2).

(** No leak: every live body is owned by a handle. *)
Definition tight {B} (s : state B) : Prop :=
  forall l, is_Some (heap s !! l) -> exists h, owns s h l.

(** The trace pairs every deallocation with an earlier allocation of the
    same location that was still outstanding, and the allocations that
    are outstanding are the live bodies. *)
Definition paired {B} (s : state B) : Prop :=
  outstanding (trace s) ∅ = Some (dom (heap s)).

(** What a handle that takes no part in an operation keeps from [s] to
    [s1]: its buffer and its value. *)
Definition kept {B} (s : state B) (h3 : addr) (s1 : state B) : Prop :=
  objects s1 !! h3 = objects s !! h3
  /\ Contract.value s1 h3 = Contract.value s h3.

End Ownership.

(** ** Client code: sequences of calls on handles *)

Module Client.
Import Mem.

Section Client.
Context (P : platform) (B : body_type) (Size : N).

(** What a client can do with handles of one instantiation: define a
    handle (by default, as a copy, by move), let one go out of scope,
    assign, and change a body through [operator->]. *)
Inductive call :=
| Construct (h : addr)
| CopyConstruct (h other : addr)
| MoveConstruct (h other : addr)
| Destroy (h : addr)
| CopyAssign (h other : addr)
| MoveAssign (h other : addr)
| Mutate (h : addr) (f : Body B -> Body B).

(** A new object takes storage that holds no live handle. *)
Definition at_unused (h : addr) (m : M B unit) : M B unit :=
  fun s => match objects s !! h with
           | None => m s
           | Some _ => Undefined
           end.

Definition perform (c : call) : M B unit :=
  match c with
  | Construct h => at_unused h (V3.Handle_ctor P B Size h)
  | CopyConstruct h other => at_unused h (V3.Handle_copy_ctor P B Size h other)
  | MoveConstruct h other => at_unused h (V3.Handle_move_ctor P B Size h other)
  | Destroy h => V3.Handle_dtor P B Size h
  | CopyAssign h other => V3.Handle_copy_assign P B Size h other
  | MoveAssign h other => V3.Handle_move_assign P B Size h other
  | Mutate h f => V3.mutate P B Size h f
  end.

(** The calls in order; an exception ends the sequence.  A program with a
    call that does not compile has no run: every run of a program that
    compiles is a run here, and here the calls before an ill-formed one
    are run as well. *)
Fixpoint run (cs : list call) : M B unit :=
  match cs with
  | [] => mret tt
  | c :: cs => perform c ;; run cs
  end.

(** A store as the member functions keep it: one representation, sound
    ownership, no leaked body, and a trace that accounts for the free
    store, in numbers and location by location. *)
Definition consistent (s : state B) : Prop :=
  Contract.uniform P B Size s
  /\ Ownership.sound s
  /\ Ownership.tight s
  /\ Contract.accounted s
  /\ Ownership.paired s.

End Client.
Arguments Construct {B} h.
Arguments CopyConstruct {B} h other.
Arguments MoveConstruct {B} h other.
Arguments Destroy {B} h.
Arguments CopyAssign {B} h other.
Arguments MoveAssign {B} h other.
Arguments Mutate {B} h f.
End Client.

(** ** Body types and a platform to run the code on *)

Module Examples.
Import Mem.

(** An LP64 platform whose [aligned_storage_t] has the maximal fundamental
    alignment; assertions are on and memory never runs out. *)
Definition lp64 : platform :=
  {| void_ptr := Layout 8 8;
     unique_ptr := Layout 8 8;
     aligned_storage_align := fun _ => 16%N;
     NDEBUG := false;
     out_of_memory := fun _ => false |}.

(** The same platform with [NDEBUG] defined. *)
Definition lp64_release : platform :=
  {| void_ptr := Layout 8 8;
     unique_ptr := Layout 8 8;
     aligned_storage_align := fun _ => 16%N;
     NDEBUG := true;
     out_of_memory := fun _ => false |}.

(** The same platform with an empty free store. *)
Definition lp64_exhausted : platform :=
  {| void_ptr := Layout 8 8;
     unique_ptr := Layout 8 8;
     aligned_storage_align := fun _ => 16%N;
     NDEBUG := false;
     out_of_memory := fun _ => true |}.

(** A counter wrapping an [int], starting at 0; moving it copies it. *)
Definition SmallCounter : body_type :=
  {| Body := Z;
     Body_layout := Layout 4 4;
     Body_default := Some 0%Z;
     Body_copy := fun b => Some b;
     Body_move := fun b => (b, b);
     Body_move_assign := fun _ r => (r, r);
     Body_move_assign_self := fun b => b |}.

(** A 200-byte buffer, seen through one number; a moved-from buffer
    reads 0. *)
Definition LargeBuffer : body_type :=
  {| Body := Z;
     Body_layout := Layout 200 1;
     Body_default := Some 0%Z;
     Body_copy := fun b => Some b;
     Body_move := fun b => (b, 0%Z);
     Body_move_assign := fun _ r => (r, 0%Z);
     Body_move_assign_self := fun b => b |}.

(** A 200-byte body whose copy constructor throws on negative values. *)
Definition Fragile : body_type :=
  {| Body := Z;
     Body_layout := Layout 200 1;
     Body_default := Some 0%Z;
     Body_copy := fun b => if (b <? 0)%Z then None else Some b;
     Body_move := fun b => (b, 0%Z);
     Body_move_assign := fun _ r => (r, 0%Z);
     Body_move_assign_self := fun b => b |}.

Definition empty_state (B : body_type) : state B := State ∅ ∅ [].

(** Handle 1 owns the buffer at location 1, which reads 7; handle 2 has
    been moved from. *)
Definition large_store : state LargeBuffer :=
  State {[1%positive := Owner (Some 1%positive); 2%positive := Owner None]}
        {[1%positive := 7%Z]} [].

(** Two counters held in place, reading 7 and 0. *)
Definition small_store : state SmallCounter :=
  State {[1%positive := InPlace (7%Z : Body SmallCounter);
          2%positive := InPlace (0%Z : Body SmallCounter)]} ∅ [].

(** Handle 1 owns a body that cannot be copied, handle 2 one that can. *)
Definition fragile_store : state Fragile :=
  State {[1%positive := Owner (Some 1%positive);
          2%positive := Owner (Some 2%positive)]}
        {[1%positive := (-1)%Z; 2%positive := 5%Z]} [].

End Examples.

(** ** [pdg::Survival] (Survival.hpp) *)

Module Survival.

(** [pdg::Probability] and [pdg::Time] are [double]: IEEE 754 binary64. *)
Abbreviation Probability := float.
Abbreviation Time := float.

(** How a call ends: a value, a thrown [pdg::computation_error], or a
    failed [assert]. *)
Inductive result :=
| Value (x : float)
| computation_error
| assertion_failed.

(** A class implementing the protocol: its virtual functions. *)
Record Survival := {
  survival_prob_impl : Time -> result;
  hazard_rate_impl : Time -> result;
  conditional_survival_prob_impl : Time -> Time -> result
}.

Section Protocol.
Context (NDEBUG : bool) (self : Survival).

(** [assert(c); k]. *)
Definition assert (c : bool) (k : result) : result :=
  if NDEBUG || c then k else assertion_failed.

Definition survival_prob (T : Time) : result :=
  assert (PrimFloat.leb 0 T) (survival_prob_impl self T).

Definition conditional_survival_prob (T t : Time) : result :=
  assert (PrimFloat.leb 0 t)
    (assert (PrimFloat.leb t T)
       (conditional_survival_prob_impl self T t)).

Definition hazard_rate (T : Time) : result :=
  assert (PrimFloat.leb 0 T) (hazard_rate_impl self T).

(** The default implementation
    [pdg::Survival::conditional_survival_prob_impl]. *)
Definition Survival_conditional_survival_prob_impl (T t : Time) : result :=
  assert (PrimFloat.leb 0 t)
    (assert (PrimFloat.leb t T)
       match survival_prob t with
       | Value S_t =>
           if PrimFloat.eqb S_t 0 then computation_error
           else match survival_prob T with
                | Value S_T => Value (PrimFloat.div S_T S_t)
                | r => r
                end
       | r => r
       end).

End Protocol.

(** A law whose computation fails from [T = 2] on. *)
Definition truncated : Survival :=
  {| survival_prob_impl := fun T =>
       if PrimFloat.ltb T 2 then Value (PrimFloat.div 1 (PrimFloat.add 1 T))
       else computation_error;
     hazard_rate_impl := fun T => Value (PrimFloat.div 1 (PrimFloat.add 1 T));
     conditional_survival_prob_impl := fun _ _ => computation_error |}.

(** A system that survives until 1 and not beyond. *)
Definition step : Survival :=
  {| survival_prob_impl := fun T =>
       if PrimFloat.ltb T 1 then Value 1%float else Value 0%float;
     hazard_rate_impl := fun T => Value 0%float;
     conditional_survival_prob_impl := fun _ _ => computation_error |}.

End Survival.

(** ** [lib::PrintableValueProtocol] (PrintableValueProtocol.hpp) *)

Module Printable.
Import Mem.

(** The classes implementing the protocol, by dynamic type:
    [NullPrintableValue], and an adapter seen through the text that its
    customisation point prints. *)
Inductive object :=
| NullPrintableValue
| PrintableValueAdapter (text : string).

(** What was written to [stdout], and the objects of the free store. *)
Record world := World {
  stdout : string;
  free_store : gmap loc object
}.

Inductive outcome (A : Type) :=
| Returns (a : A) (w : world)
| Throws_bad_alloc (w : world).
Arguments Returns {A} a w.
Arguments Throws_bad_alloc {A} w.

Section Protocol.
Context (out_of_memory : world -> bool).

(** [std::make_unique<T>(args)]: never null; [std::bad_alloc] when there
    is no memory. *)
Definition make_unique (o : object) (w : world) : outcome (option loc) :=
  if out_of_memory w then Throws_bad_alloc w
  else let l := fresh (dom (free_store w)) in
       Returns (Some l) (World (stdout w) (<[l := o]> (free_store w))).

Definition print_impl (this : object) (w : world) : world :=
  match this with
  | NullPrintableValue => w
  | PrintableValueAdapter text => World (stdout w +:+ text) (free_store w)
  end.

Definition clone_impl (this : object) (w : world) : outcome (option loc) :=
  match this with
  | NullPrintableValue => make_unique NullPrintableValue w
  | PrintableValueAdapter text => make_unique (PrintableValueAdapter text) w
  end.

Definition print (this : object) (w : world) : world := print_impl this w.

Definition clone (this : object) (w : world) : outcome (option loc) :=
  clone_impl this w.

(** [PrintableValueProtocol::Default], bound to a [NullPrintableValue]. *)
Definition Default : object := NullPrintableValue.

Definition getDefault (w : world) : outcome (option loc) :=
  clone Default w.

End Protocol.
End Printable.

(** ** [lib::PrintableValueAdapter<T>] (PrintableValueAdapter.hpp) *)

Module Adapter.
Import Mem.

(** The adapted type [T], by its values: what its copy constructor makes
    ([None] when it throws), its move constructor (the new value and what
    the source is left with), and the text that the customisation point
    [print_cp] writes, [fmt::print("{}", obj)] unless specialised. *)
Record adapted := Adapted {
  T : Type;
  T_copy : T -> option T;
  T_move : T -> T * T;
  print_cp : T -> string
}.

Inductive exn := bad_alloc | T_exception.

Section Adapter.
Context (A : adapted).

(** The objects behind a [PrintableValueProtocol&], by dynamic type. *)
Inductive object :=
| NullPrintableValue
| PrintableValueAdapter (impl_ : T A).

Record world := World {
  stdout : string;
  free_store : gmap loc object
}.

Inductive outcome (X : Type) :=
| Returns (x : X) (w : world)
| Throws (e : exn) (w : world).
Arguments Returns {X} x w.
Arguments Throws {X} e w.

Context (out_of_memory : world -> bool).

(** [PrintableValueAdapter(T obj)]: [impl_(std::move(obj))]. *)
Definition PrintableValueAdapter_ctor (obj : T A) : object :=
  PrintableValueAdapter (T_move A obj).1.

(** [std::make_unique<C>(args)]: memory first, then the constructor of
    [C], whose arguments may fail to be built. *)
Definition make_unique (ctor : option object) (w : world) : outcome (option loc) :=
  if out_of_memory w then Throws bad_alloc w
  else match ctor with
       | None => Throws T_exception w
       | Some o =>
           let l := fresh (dom (free_store w)) in
           Returns (Some l) (World (stdout w) (<[l := o]> (free_store w)))
       end.

Definition print_impl (this : object) (w : world) : world :=
  match this with
  | NullPrintableValue => w
  | PrintableValueAdapter impl_ =>
      World (stdout w +:+ print_cp A impl_) (free_store w)
  end.

(** [clone_impl]: the adapter passes [impl_] to a constructor that takes
    its argument by value, so [impl_] is copied and the copy is moved. *)
Definition clone_impl (this : object) (w : world) : outcome (option loc) :=
  match this with
  | NullPrintableValue => make_unique (Some NullPrintableValue) w
  | PrintableValueAdapter impl_ =>
      make_unique (PrintableValueAdapter_ctor <$> T_copy A impl_) w
  end.

Definition print (this : object) (w : world) : world := print_impl this w.

Definition clone (this : object) (w : world) : outcome (option loc) :=
  clone_impl this w.

(** The text an object prints: its value, for the protocol. *)
Definition text (this : object) : string :=
  match this with
  | NullPrintableValue => EmptyString
  | PrintableValueAdapter impl_ => print_cp A impl_
  end.

Definition same_class (o1 o2 : object) : Prop :=
  match o1, o2 with
  | NullPrintableValue, NullPrintableValue => True
  | PrintableValueAdapter _, PrintableValueAdapter _ => True
  | _, _ => False
  end.

End Adapter.
Arguments NullPrintableValue {A}.
Arguments PrintableValueAdapter {A} impl_.
Arguments Returns {A X} x w.
Arguments Throws {A X} e w.
Arguments World {A} stdout free_store.
Arguments stdout {A} w.
Arguments free_store {A} w.

(** Copying and moving leave the printed text of [T] alone. *)
Definition prints_alike (A : adapted) : Prop :=
  (forall x c, T_copy A x = Some c -> print_cp A c = print_cp A x)
  /\ (forall x, print_cp A (T_move A x).1 = print_cp A x).

(** [std::string], printed as it is and empty once moved from; and a
    type like it whose copy constructor throws on the empty value. *)
Definition String : adapted :=
  {| T := string; T_copy := fun x => Some x;
     T_move := fun x => (x, EmptyString); print_cp := fun x => x |}.

Definition Brittle : adapted :=
  {| T := string;
     T_copy := fun x => if decide (x = EmptyString) then None else Some x;
     T_move := fun x => (x, EmptyString); print_cp := fun x => x |}.

End Adapter.

(** ** The type traits (is_regular.hpp, is_printable_fmt.hpp) *)

Module Traits.

(** The types an expression can have, as far as the traits tell them
    apart. *)
Inductive cpp_type := bool_t | void_t | int_t | class_t (name : string).

#[global] Instance cpp_type_eq_dec : EqDecision cpp_type.
Proof. solve_decision. Defined.

(** What the compiler knows of a type [T]: the answers of the traits of
    the standard library, and the types of [a == b] and [a != b] for
    [T const&] operands ([None] when the expression is ill-formed). *)
Record type_info := {
  is_object : bool;
  is_referenceable : bool;
  is_move_constructible : bool;
  is_assignable_from_rvalue : bool;
  is_swappable : bool;
  is_copy_constructible : bool;
  is_assignable_from_const_lvalue : bool;
  is_assignable_from_lvalue : bool;
  is_default_constructible : bool;
  equality_compare_t : option cpp_type;
  inequality_compare_t : option cpp_type
}.

(** The detection idiom: is the expression well formed; is it well formed
    with exactly the type [R]. *)
Definition detector (expression : option cpp_type) : bool :=
  match expression with Some _ => true | None => false end.

Definition type_detector (expression : option cpp_type) (R : cpp_type) : bool :=
  match expression with
  | Some t => bool_decide (t = R)
  | None => false
  end.

Definition is_movable (T : type_info) : bool :=
  is_object T && is_move_constructible T && is_assignable_from_rvalue T
  && is_swappable T.

Definition is_copyable (T : type_info) : bool :=
  is_movable T && is_copy_constructible T
  && is_assignable_from_const_lvalue T && is_assignable_from_lvalue T
  && is_assignable_from_rvalue T.

Definition is_semiregular (T : type_info) : bool :=
  is_copyable T && is_default_constructible T.

Definition is_equality_comparable (T : type_info) : bool :=
  type_detector (equality_compare_t T) bool_t
  && type_detector (inequality_compare_t T) bool_t.

Definition is_regular (T : type_info) : bool :=
  is_semiregular T && is_equality_comparable T.

(** [decltype(lib::print(std::declval<T const&>()))]: [lib::print] is a
    function template declared for every [T] with result [void], so the
    expression is well formed as soon as [T const&] is a type. *)
Definition lib_print_t (T : type_info) : option cpp_type :=
  if is_referenceable T then Some void_t else None.

Definition is_printable (T : type_info) : bool :=
  is_semiregular T && type_detector (lib_print_t T) void_t.

(** A class with every operation of a regular type. *)
Definition regular_class : type_info :=
  {| is_object := true; is_referenceable := true;
     is_move_constructible := true; is_assignable_from_rvalue := true;
     is_swappable := true; is_copy_constructible := true;
     is_assignable_from_const_lvalue := true;
     is_assignable_from_lvalue := true; is_default_constructible := true;
     equality_compare_t := Some bool_t; inequality_compare_t := Some bool_t |}.

End Traits.

(** ** Classes that implement [pdg::Survival] with the default *)

Module SurvivalClasses.
Import Survival.

(** A class that implements [survival_prob_impl] and [hazard_rate_impl]
    and opts into the default of the protocol: its
    [conditional_survival_prob_impl] calls
    [Survival::conditional_survival_prob_impl(T, t)], which only uses the
    public [survival_prob]. *)
Definition opting_in (NDEBUG : bool) (S h : Time -> result) : Survival :=
  {| survival_prob_impl := S;
     hazard_rate_impl := h;
     conditional_survival_prob_impl :=
       Survival_conditional_survival_prob_impl NDEBUG
         {| survival_prob_impl := S;
            hazard_rate_impl := h;
            conditional_survival_prob_impl := fun _ _ => computation_error |} |}.

(** A time the contract excludes: not a number, or negative. *)
Definition bad_time (x : Time) : Prop :=
  PrimFloat.is_nan x = true \/ PrimFloat.ltb x 0 = true.

(** What the quotient is computed from when nothing is asserted. *)
Definition quotient_of (self : Survival) (T t : Time) : result :=
  match survival_prob_impl self t with
  | Value S_t =>
      if PrimFloat.eqb S_t 0 then computation_error
      else match survival_prob_impl self T with
           | Value S_T => Value (PrimFloat.div S_T S_t)
           | r => r
           end
  | r => r
  end.

(** The exponential-like law [1 / (1 + T)], opting into the default. *)
Definition hyperbolic (NDEBUG : bool) : Survival :=
  opting_in NDEBUG
    (fun T => Value (PrimFloat.div 1 (PrimFloat.add 1 T)))
    (fun T => Value (PrimFloat.div 1 (PrimFloat.add 1 T))).

(** A law whose computation breaks down to NaN from 1 on. *)
Definition broken : Survival :=
  {| survival_prob_impl := fun T =>
       if PrimFloat.ltb T 1 then Value 1%float else Value PrimFloat.nan;
     hazard_rate_impl := fun T => Value 0%float;
     conditional_survival_prob_impl := fun _ _ => computation_error |}.

End SurvivalClasses.

(** * Properties of the handle *)

Module HandleFacts.
Import Mem Examples Contract.

Ltac unfold_machine :=
  unfold V3.Handle_copy_assign, V2.Handle_copy_assign in *;
  unfold V3.Handle_ctor, V3.Handle_copy_ctor, V3.Handle_move_ctor,
    V3.Handle_dtor, V3.Handle_move_assign, V3.read, V3.mutate, V3.body,
    V3.operator_arrow_mut, V3.operator_arrow,
    V2.Handle_ctor, V2.Handle_copy_ctor, V2.Handle_move_ctor, V2.Handle_dtor,
    V2.Handle_move_assign, V2.operator_arrow, V2.unwinding in *;
  unfold make_unique_copy, make_unique_default, unique_ptr_move_ctor,
    unique_ptr_move_assign in *;
  unfold unique_ptr_reset, unique_ptr_release, unique_ptr_get, new_ in *;
  unfold delete_, construct_at, operator_new in *;
  unfold operator_delete, destroy, construct_copy, construct_move,
    construct_default, assign_move, deref in *;
  unfold load, store, as_unique_ptr, set_unique_ptr, placement_new,
    end_lifetime, alloca, assert, log, throw, undefined, reinterpret_cast,
    ill_formed in *;
  unfold mbind, M_bind, mret, M_ret in *.

(** Symbolic execution of straight-line code: known lookups and tests are
    rewritten, and the code is reduced. *)
Ltac exec_step :=
  match goal with
  | H : V3.fits _ _ _ = _ |- context [V3.fits _ _ _] => rewrite H
  | H : NDEBUG _ = _ |- context [NDEBUG _] => rewrite H
  | H : out_of_memory _ _ = _ |- context [out_of_memory _ _] => rewrite H
  | H : Body_copy _ _ = _ |- context [Body_copy _ _] => rewrite H
  | H : Body_default _ = _ |- context [Body_default _] => rewrite H
  | H : ?m !! ?i = _ |- context [?m !! ?i] => rewrite H
  | |- context [<[?i := _]> _ !! ?i] => rewrite lookup_insert_eq
  | |- context [<[?i := _]> _ !! _] => rewrite lookup_insert_ne by congruence
  | |- context [delete ?i _ !! ?i] => rewrite lookup_delete_eq
  | |- context [delete ?i _ !! _] => rewrite lookup_delete_ne by congruence
  | |- context [_ || true] => rewrite orb_true_r
  | |- context [_ || false] => rewrite orb_false_r
  | |- context [bool_decide _] => case_bool_decide; try congruence
  | |- context [decide _] => case_decide; try congruence
  end.
Ltac exec :=
  unfold_machine; simpl; repeat (exec_step; simpl);
  rewrite <- ?app_assoc; simpl.

Section V3_facts.
Context (P : platform) (B : body_type) (Size : N).

#[local] Abbreviation live := (Contract.live P B Size).
#[local] Abbreviation uniform := (Contract.uniform P B Size).

Lemma fresh_loc_unused (s : state B) : heap s !! fresh (dom (heap s)) = None.
Proof. apply not_elem_of_dom, is_fresh. Qed.

Lemma fresh_addr_unused (s : state B) : objects s !! fresh (dom (objects s)) = None.
Proof. apply not_elem_of_dom, is_fresh. Qed.


(** C1. The copy constructor with the indirect representation.  In
    HandleImpl.v3.h it is ill-formed: [other] is a [Handle const&], and the
    first statement of the branch casts [&other.storage_] to [BodyPtr*],
    so the constructor cannot be instantiated for a body that does not
    fit, whatever the source holds.  The [unique_ptr]-only handle of
    HandleImpl.v2.h, constructed at another address than its source, does
    what is claimed: from a source whose pointer is null it returns, in
    debug and release builds alike, with a null handle and with the free
    store and the trace unchanged, so nothing was dereferenced or copied;
    from a source that owns a live body [b], when memory is available and
    the body's copy constructor returns [b'], it returns after one
    allocation at a location [l'] that was unused and one copy
    construction, and the new handle owns [l'], which holds [b']. *)
Theorem copy_ctor_indirect (s : state B) (this other : addr) :
  (V3.fits P (Body_layout B) Size = false ->
   V3.Handle_copy_ctor P B Size this other s = Ill_formed)
  /\ (this <> other ->
      (V3.null_handle s other ->
       V2.Handle_copy_ctor P B this other s
       = Returns tt (State (<[this := Owner None]> (objects s))
                           (heap s) (trace s)))
      /\ (forall l b b',
            objects s !! other = Some (Owner (Some l)) ->
            heap s !! l = Some b ->
            out_of_memory P (trace s) = false ->
            Body_copy B b = Some b' ->
            let l' := fresh (dom (heap s)) in
            heap s !! l' = None
            /\ V2.Handle_copy_ctor P B this other s
               = Returns tt (State (<[this := Owner (Some l')]> (objects s))
                                   (<[l' := b']> (heap s))
                                   (trace s ++ [EvNew l'; EvCopy])))).
Proof.
  split; [intros Hfits; by exec|].
  intros Hne. split.
  - unfold V3.null_handle. intros Hnull. by exec.
  - intros l b b' Hother Hl Hmem Hcopy. cbv zeta.
    split; [apply fresh_loc_unused|].
    exec. by rewrite insert_insert_eq.
Qed.

(** What a valid handle with a value has in the store. *)
Lemma valid_inv (s : state B) (h : addr) (b : Body B) :
  V3.valid P B Size s h ->
  value s h = Some b ->
  if V3.fits P (Body_layout B) Size
  then objects s !! h = Some (InPlace b)
  else exists l, objects s !! h = Some (Owner (Some l)) /\ heap s !! l = Some b.
Proof.
  unfold V3.valid, value. destruct (V3.fits _ _ _).
  - intros [b0 ->]. by intros [= ->].
  - intros (l & b0 & -> & Hl). eauto.
Qed.

(** With the inline representation a handle dereferences to [b] exactly
    when its buffer holds [b]. *)
Lemma read_inv (s s0 : state B) (h : addr) (b : Body B) :
  V3.fits P (Body_layout B) Size = true ->
  V3.read P B Size h s = Returns b s0 ->
  s0 = s /\ objects s !! h = Some (InPlace b).
Proof.
  intros Hfits. unfold_machine. rewrite Hfits. simpl.
  destruct (objects s !! h) as [[b0|p]|]; simpl; try done.
  intros [= -> ->]. done.
Qed.

Lemma read_valid (s : state B) (h : addr) :
  V3.fits P (Body_layout B) Size = true ->
  V3.valid P B Size s h <-> exists b, V3.read P B Size h s = Returns b s.
Proof.
  intros Hfits. unfold V3.valid. rewrite Hfits. split.
  - intros [b Hb]. exists b. by exec.
  - intros [b Hb]. apply read_inv in Hb as [_ Hb]; eauto.
Qed.

(** C2. Let [h] be valid and hold [b], and move-construct [h2] from it
    (the body's move constructor giving the target the source's value,
    when the body is held in place).  The call returns, [h2] is valid and
    holds [b], and the free store is unchanged.  Indirect: the slot of [h]
    is null and the trace is unchanged (no allocation, deallocation or
    copy).  Inline: the slot of [h] holds what the body's move constructor
    left, still live, and the only step was that move.  Afterwards
    destroying [h] returns and leaves [h2] holding [b], without touching
    the free store, and [h2] can then be destroyed in turn: over the three
    calls the pointee was destroyed and deallocated once (indirect), or
    each of the two in-place bodies was destroyed once (inline).  Inline,
    [*h2] reads [b], and copy-constructing a third handle from [h] neither
    fails an assertion nor is undefined.  Indirect, neither can be
    written: [*h2] and the copy of [h] are ill-formed. *)
Theorem move_ctor_valid (s : state B) (h2 h : addr) (b : Body B) :
  V3.valid P B Size s h ->
  value s h = Some b ->
  h2 <> h ->
  (V3.fits P (Body_layout B) Size = true -> move_yields_source B) ->
  exists s1,
    V3.Handle_move_ctor P B Size h2 h s = Returns tt s1
    /\ V3.valid P B Size s1 h2
    /\ value s1 h2 = Some b
    /\ heap s1 = heap s
    /\ (if V3.fits P (Body_layout B) Size
        then objects s1 !! h = Some (InPlace (Body_move B b).2)
             /\ trace s1 = trace s ++ [EvMove]
             /\ V3.read P B Size h2 s1 = Returns b s1
        else V3.null_handle s1 h
             /\ trace s1 = trace s
             /\ V3.read P B Size h2 s1 = Ill_formed)
    /\ (exists s2 s3,
          V3.Handle_dtor P B Size h s1 = Returns tt s2
          /\ value s2 h2 = Some b
          /\ heap s2 = heap s
          /\ V3.Handle_dtor P B Size h2 s2 = Returns tt s3
          /\ if V3.fits P (Body_layout B) Size
             then trace s3 = trace s ++ [EvMove; EvDestroy; EvDestroy]
             else exists l, objects s !! h = Some (Owner (Some l))
                            /\ trace s3 = trace s ++ [EvDestroy; EvDelete l])
    /\ (forall h3,
          if V3.fits P (Body_layout B) Size
          then defined (V3.Handle_copy_ctor P B Size h3 h s1)
          else V3.Handle_copy_ctor P B Size h3 h s1 = Ill_formed).
Proof.
  intros Hvalid Hvalue Hne Hlaw.
  pose proof (valid_inv s h b Hvalid Hvalue) as Hh. clear Hvalid Hvalue.
  unfold V3.valid, value, V3.null_handle.
  destruct (V3.fits P (Body_layout B) Size) eqn:Hfits.
  - specialize (Hlaw eq_refl b).
    eexists. split; [by exec|]. simpl.
    split; [exec; eauto|]. split; [exec; by rewrite Hlaw|].
    split; [done|].
    split; [split; [by exec|split; [done|exec; by rewrite Hlaw]]|]. split.
    + do 2 eexists. split; [by exec|]. simpl.
      split; [exec; by rewrite Hlaw|]. split; [done|].
      split; [by exec|]. simpl. done.
    + intros h3. exec. destruct (Body_copy B _); simpl; done.
  - destruct Hh as (l & Hh & Hl).
    eexists. split; [by exec|]. simpl.
    split; [exec; eauto|]. split; [by exec|]. split; [done|].
    split; [split; [by exec|split; [done|by exec]]|]. split.
    + do 2 eexists. split; [by exec|]. simpl.
      split; [by exec|]. split; [done|].
      split; [by exec|]. simpl. eauto.
    + intros h3. by exec.
Qed.

Lemma live_inv (s : state B) (h : addr) :
  live s h ->
  if V3.fits P (Body_layout B) Size
  then exists b, objects s !! h = Some (InPlace b)
  else objects s !! h = Some (Owner None)
       \/ exists l b, objects s !! h = Some (Owner (Some l)) /\ heap s !! l = Some b.
Proof.
  unfold live, V3.valid, V3.null_handle.
  destruct (V3.fits _ _ _); intros [H|[? H]]; eauto; done.
Qed.

(** The local handle of the copy assignment lives at an address of its
    own, and a new body at a location of its own. *)
Ltac name_fresh s :=
  pose proof (fresh_addr_unused s) as Htmp;
  pose proof (fresh_loc_unused s) as Hnew.

(** A temporary that is gone leaves no mark in the store. *)
Ltac tidy :=
  repeat first
    [ rewrite delete_insert_eq
    | rewrite delete_insert_ne by congruence
    | rewrite delete_id by assumption
    | rewrite insert_insert_eq ].

(** What the store says about a handle. *)
Ltac observe :=
  unfold value, Contract.live, V2.live, V3.valid, V3.null_handle in *; simpl;
  repeat (exec_step; simpl).

Ltac finish :=
  repeat split; try congruence;
  try (by eauto);
  try (right; split; congruence);
  try (left; do 2 eexists; split; [reflexivity|];
       repeat (exec_step; simpl); done);
  try (right; do 2 eexists; split; [reflexivity|];
       repeat (exec_step; simpl); done);
  try (intros _; do 2 eexists; split; [reflexivity|];
       repeat (exec_step; simpl); done).

(** C3. Copy assignment between live handles that do not share a body,
    for a body type with value semantics.  With the indirect
    representation of HandleImpl.v3.h it is ill-formed: [auto tmp = other]
    needs the copy constructor, which does not compile there.  With the
    inline representation, and for the [unique_ptr]-only handle of
    HandleImpl.v2.h, the claim holds; [tmp] is the address of the
    temporary.  If copy-constructing the temporary throws, the assignment
    throws the same exception and no handle and no body of the free store
    has changed.  If it returns, the assignment returns, the target holds
    the value the source held, and the source still holds it; both handles
    stay live.  Nothing else can happen. *)
Theorem copy_assign_strong (s : state B) (this other : addr) :
  unshared s this other ->
  copy_yields_equal B ->
  (V3.fits P (Body_layout B) Size = false ->
   V3.Handle_copy_assign P B Size this other s = Ill_formed)
  /\ (V3.fits P (Body_layout B) Size = true ->
      live s this -> live s other -> move_assign_yields_source B ->
      match V3.Handle_copy_ctor P B Size (fresh (dom (objects s))) other s with
      | Returns _ _ =>
          exists s1,
            V3.Handle_copy_assign P B Size this other s = Returns tt s1
            /\ value s1 this = value s other
            /\ value s1 other = value s other
            /\ live s1 this /\ live s1 other
      | Throws e s1 =>
          V3.Handle_copy_assign P B Size this other s = Throws e s1
          /\ objects s1 = objects s /\ heap s1 = heap s
      | Aborts | Undefined | Ill_formed => False
      end)
  /\ (V2.live s this -> V2.live s other ->
      match V2.Handle_copy_ctor P B (fresh (dom (objects s))) other s with
      | Returns _ _ =>
          exists s1,
            V2.Handle_copy_assign P B this other s = Returns tt s1
            /\ value s1 this = value s other
            /\ value s1 other = value s other
            /\ V2.live s1 this /\ V2.live s1 other
      | Throws e s1 =>
          V2.Handle_copy_assign P B this other s = Throws e s1
          /\ objects s1 = objects s /\ heap s1 = heap s
      | Aborts | Undefined | Ill_formed => False
      end).
Proof.
  intros Hsh Hcopy. unfold unshared in Hsh. name_fresh s.
  split; [intros Hfits; by exec|]. split.
  - intros Hfits Hthis Hother Hassign.
    apply live_inv in Hthis, Hother. rewrite Hfits in Hthis, Hother.
    destruct Hthis as [d Hd], Hother as [b Hb].
    destruct (Body_copy B b) as [b'|] eqn:Hb'; [|by exec].
    apply Hcopy in Hb' as Heq; subst b'.
    destruct (decide (this = other)) as [->|Hne];
      exec; (eexists; split; [done|]); tidy; observe;
      rewrite ?Hassign; finish.
  - intros Hthis Hother.
    assert (other <> fresh (dom (objects s))) as Hother_tmp.
    { intros E. rewrite E in Hother. unfold V2.live in Hother.
      rewrite Htmp in Hother. by destruct Hother as [?|(? & ? & ? & _)]. }
    assert (this <> fresh (dom (objects s))) as Hthis_tmp.
    { intros E. rewrite E in Hthis. unfold V2.live in Hthis.
      rewrite Htmp in Hthis. by destruct Hthis as [?|(? & ? & ? & _)]. }
    destruct Hother as [Ho|(lo & b & Ho & Hlo)].
    + destruct Hthis as [Ht|(lt & d & Ht & Hlt)];
        (destruct (decide (this = other)) as [->|Hne]; try congruence);
        exec; (eexists; split; [done|]); tidy; observe; finish.
    + destruct (out_of_memory P (trace s)) eqn:Hoom; [exec; by tidy|].
      destruct (Body_copy B b) as [b'|] eqn:Hb'; [|exec; by tidy].
      apply Hcopy in Hb' as Heq; subst b'.
      destruct Hthis as [Ht|(lt & d & Ht & Hlt)];
        (destruct (decide (this = other)) as [->|Hne]; try congruence);
        try (assert (lt <> lo) by (intros ->; eauto));
        exec; (eexists; split; [done|]); tidy; observe; finish.
Qed.

(** C5. Copy-constructing [h2] from a valid [h] that holds [b], for a body
    type whose copies are equal to their source.  Inline: if the call
    returns, [*h2 = b] and [*h = b]; changing the body through [h] by any
    [f] makes [*h] read [f b] and leaves [*h2 = b], and the other way
    round; if it throws, the body's copy constructor threw, and no handle
    or body has changed; nothing else can happen.  Indirect: the copy
    constructor is ill-formed, and so are reading and changing the body
    through the handle. *)
Theorem copy_is_deep (s : state B) (h2 h : addr) (b : Body B) :
  V3.valid P B Size s h ->
  value s h = Some b ->
  h2 <> h ->
  copy_yields_equal B ->
  if V3.fits P (Body_layout B) Size then
    match V3.Handle_copy_ctor P B Size h2 h s with
    | Returns _ s1 =>
        V3.read P B Size h2 s1 = Returns b s1
        /\ V3.read P B Size h s1 = Returns b s1
        /\ (forall f, exists s2,
              V3.mutate P B Size h f s1 = Returns tt s2
              /\ V3.read P B Size h s2 = Returns (f b) s2
              /\ V3.read P B Size h2 s2 = Returns b s2)
        /\ (forall f, exists s2,
              V3.mutate P B Size h2 f s1 = Returns tt s2
              /\ V3.read P B Size h2 s2 = Returns (f b) s2
              /\ V3.read P B Size h s2 = Returns b s2)
    | Throws e s1 =>
        objects s1 = objects s /\ heap s1 = heap s
        /\ e = body_exception /\ Body_copy B b = None
    | Aborts | Undefined | Ill_formed => False
    end
  else
    V3.Handle_copy_ctor P B Size h2 h s = Ill_formed
    /\ V3.read P B Size h s = Ill_formed
    /\ forall f, V3.mutate P B Size h f s = Ill_formed.
Proof.
  intros Hvalid Hvalue Hne Hcopy.
  pose proof (valid_inv s h b Hvalid Hvalue) as Hh. clear Hvalid Hvalue.
  destruct (V3.fits P (Body_layout B) Size) eqn:Hfits.
  - destruct (Body_copy B b) as [b'|] eqn:Hb'; [|exec; eauto].
    apply Hcopy in Hb' as Heq; subst b'. exec.
    repeat split; try done; intros f; eexists;
      (split; [by exec|]); simpl; split; by exec.
  - repeat split; try intros f; by exec.
Qed.

(** C6. Assigning a live handle to itself, for a body type with value
    semantics.  Copy, inline: the call returns with the handle live and
    valid and holding the value it held, or it throws (the copy for the
    temporary failed) with every handle and body unchanged.  Copy,
    indirect: the assignment is ill-formed, as the copy constructor it
    calls is.  Move, indirect: [reset(release())] finds a null pointer to
    release, so the call returns in the state it started from, nothing
    destroyed.  Move, inline: the call returns after the body's own
    self-move-assignment, which decides the value; nothing is destroyed
    and the free store is untouched. *)
Theorem self_assignment (s : state B) (h : addr) :
  live s h ->
  copy_yields_equal B ->
  (V3.fits P (Body_layout B) Size = true -> move_assign_yields_source B) ->
  (if V3.fits P (Body_layout B) Size then
     match V3.Handle_copy_assign P B Size h h s with
     | Returns _ s1 =>
         value s1 h = value s h /\ live s1 h /\ V3.valid P B Size s1 h
     | Throws _ s1 => objects s1 = objects s /\ heap s1 = heap s
     | Aborts | Undefined | Ill_formed => False
     end
   else V3.Handle_copy_assign P B Size h h s = Ill_formed)
  /\ if V3.fits P (Body_layout B) Size
     then exists b,
            objects s !! h = Some (InPlace b)
            /\ V3.Handle_move_assign P B Size h h s
               = Returns tt (State (<[h := InPlace (Body_move_assign_self B b)]>
                                      (objects s))
                                   (heap s) (trace s ++ [EvMoveAssign]))
     else V3.Handle_move_assign P B Size h h s = Returns tt s.
Proof.
  intros Hlive Hcopy Hassign. apply live_inv in Hlive. name_fresh s.
  destruct (V3.fits P (Body_layout B) Size) eqn:Hfits.
  - destruct Hlive as [b Hb]. specialize (Hassign eq_refl). split.
    + destruct (Body_copy B b) as [b'|] eqn:Hb'; [|by exec].
      apply Hcopy in Hb' as Heq; subst b'.
      exec; tidy; observe; rewrite ?Hassign; finish.
    + exists b. split; [done|]. by exec.
  - split; [by exec|].
    destruct s as [objs hp tr]; simpl in *.
    destruct Hlive as [Hh|(l & b & Hh & Hl)]; exec; tidy; by rewrite insert_id.
Qed.

(** C7. What [operator->] and [*h] do.  HandleImpl.v3.h, inline: whatever
    the body holds and in any build, both overloads return the address of
    the buffer and [*h] reads the body in place.  HandleImpl.v3.h,
    indirect: [operator->() const] casts [&storage_], a pointer to const
    in a const member function, to [std::unique_ptr<Body>*]; it is
    ill-formed, and so are the mutable overload, which calls it, and
    [*h]: the assertion is never reached.  HandleImpl.v2.h, always
    indirect: on a null handle a debug build fails the assertion, and a
    release build returns the null pointer, going through which is
    undefined; on a handle that owns a live body, in any build, the
    accessor returns the pointer to that body, through which the body is
    read. *)
Theorem dereference_contract (s : state B) (h : addr) :
  (V3.fits P (Body_layout B) Size = false ->
   V3.operator_arrow P B Size h s = Ill_formed
   /\ V3.operator_arrow_mut P B Size h s = Ill_formed
   /\ V3.read P B Size h s = Ill_formed)
  /\ (forall b,
        V3.fits P (Body_layout B) Size = true ->
        objects s !! h = Some (InPlace b) ->
        V3.operator_arrow P B Size h s = Returns (PInPlace h) s
        /\ V3.operator_arrow_mut P B Size h s = Returns (PInPlace h) s
        /\ V3.read P B Size h s = Returns b s)
  /\ (V3.null_handle s h ->
      if NDEBUG P
      then V2.operator_arrow P B h s = Returns PNull s
           /\ (p ← V2.operator_arrow P B h; deref B p) s = Undefined
      else V2.operator_arrow P B h s = Aborts)
  /\ (forall l b,
        objects s !! h = Some (Owner (Some l)) ->
        heap s !! l = Some b ->
        V2.operator_arrow P B h s = Returns (PHeap l) s
        /\ (p ← V2.operator_arrow P B h; r ← deref B p; load B r) s
           = Returns b s).
Proof.
  split; [|split; [|split]].
  - intros Hfits. repeat split; by exec.
  - intros b Hfits Hh. repeat split; by exec.
  - unfold V3.null_handle. intros Hnull.
    destruct (NDEBUG P) eqn:Hd; [split|]; by exec.
  - intros l b Hh Hl. split; by exec.
Qed.

(** *** Invariants of the store *)

Section Rules.
Context (I : state B -> Prop).

Lemma preserves_ret {A} (a : A) : preserves I (mret a).
Proof. by intros s Hs. Qed.

Lemma preserves_bind {A C} (m : M B A) (k : A -> M B C) :
  preserves I m -> (forall a, preserves I (k a)) -> preserves I (m ≫= k).
Proof.
  intros Hm Hk s Hs. specialize (Hm s Hs).
  unfold mbind, M_bind. destruct (m s); simpl in *; try done.
  by apply Hk.
Qed.

Lemma preserves_query {A} (m : M B A) : query m -> preserves I m.
Proof.
  intros Hm s Hs. specialize (Hm s).
  destruct (m s); simpl; try done; by subst.
Qed.

Lemma query_throw {A} e : query (throw (B := B) (A := A) e).
Proof. by intros s. Qed.

Lemma query_undefined {A} : query (undefined (B := B) (A := A)).
Proof. by intros s. Qed.

Lemma query_reinterpret_cast from to h : query (reinterpret_cast B from to h).
Proof. intros s. by destruct from, to. Qed.

Lemma query_assert c : query (assert P B c).
Proof. intros s. unfold assert. by destruct (NDEBUG P || c). Qed.

Lemma query_as_unique_ptr h : query (as_unique_ptr B h).
Proof.
  intros s. unfold as_unique_ptr. by destruct (objects s !! h) as [[|]|].
Qed.

Lemma query_alloca : query (alloca B).
Proof. by intros s. Qed.

Lemma query_load p : query (load B p).
Proof.
  intros s. unfold load. destruct p as [|a|l]; [done| |].
  - by destruct (objects s !! a) as [[|]|].
  - by destruct (heap s !! l).
Qed.

Lemma query_deref p : query (deref B p).
Proof. intros s. unfold deref. by destruct p. Qed.

Lemma query_operator_arrow h : query (V3.operator_arrow P B Size h).
Proof. intros s. unfold_machine. by destruct (V3.fits _ _ _). Qed.

Lemma query_body h : query (V3.body P B Size h).
Proof.
  intros s. unfold V3.body, mbind, M_bind.
  pose proof (query_operator_arrow h s) as Hq.
  destruct (V3.operator_arrow P B Size h s) as [p s1| | | |]; try done.
  subst s1. apply query_deref.
Qed.

End Rules.

(** One step of a proof that a member function preserves an invariant:
    sequencing, the branches of the code, and the operations that only
    read; the rest is in the hint database. *)
Create HintDb pres discriminated.

Ltac pres_step :=
  first
    [ apply preserves_ret
    | apply preserves_query;
      first [ apply query_throw | apply query_undefined | apply query_assert
            | apply query_as_unique_ptr | apply query_alloca
            | apply query_reinterpret_cast
            | apply query_load | apply query_deref | apply query_body
            | apply query_operator_arrow ]
    | solve [eauto with pres]
    | apply preserves_bind; [|intros ?]
    | match goal with
      | |- preserves _ (if ?c then _ else _) => destruct c eqn:?
      | |- preserves _ (match ?x with _ => _ end) => destruct x eqn:?
      end ].

Ltac pres := repeat pres_step.

(** **** Every live handle has the representation of the instantiation *)

Lemma uniform_placement_new h v :
  V3.is_in_place v = V3.fits P (Body_layout B) Size ->
  preserves uniform (placement_new B h v).
Proof.
  intros Hv s Hs h' v'. simpl.
  rewrite lookup_insert_Some. intros [[_ <-]|[_ Hh']]; [done|]. by eapply Hs.
Qed.

Lemma uniform_set_unique_ptr h p : preserves uniform (set_unique_ptr B h p).
Proof.
  intros s Hs. unfold set_unique_ptr.
  destruct (objects s !! h) as [[|q]|] eqn:Hh; simpl; try done.
  intros h' v'. simpl.
  rewrite lookup_insert_Some. intros [[_ <-]|[_ Hh']]; [|by eapply Hs].
  by apply (Hs _ _ Hh).
Qed.

Lemma uniform_store p b : preserves uniform (store B p b).
Proof.
  intros s Hs. unfold store.
  destruct p as [|a|l]; simpl; try done.
  - destruct (objects s !! a) as [[|q]|] eqn:Ha; simpl; try done.
    intros h' v'. simpl.
    rewrite lookup_insert_Some. intros [[_ <-]|[_ Hh']]; [|by eapply Hs].
    by apply (Hs _ _ Ha).
  - by destruct (heap s !! l).
Qed.

Lemma uniform_end_lifetime h : preserves uniform (end_lifetime B h).
Proof.
  intros s Hs h' v'. simpl.
  rewrite lookup_delete_Some. intros [_ Hh']. by eapply Hs.
Qed.

Lemma uniform_objects {A} (m : M B A) :
  (forall s, match m s with
             | Returns _ s1 | Throws _ s1 => objects s1 = objects s
             | Aborts | Undefined | Ill_formed => True
             end) ->
  preserves uniform m.
Proof.
  intros Hm s Hs. specialize (Hm s). unfold uniform.
  destruct (m s); simpl; try done; by rewrite Hm.
Qed.

Lemma uniform_log e : preserves uniform (log (B := B) e).
Proof. by apply uniform_objects. Qed.

Lemma uniform_operator_new : preserves uniform (operator_new P B).
Proof.
  apply uniform_objects. intros s. unfold operator_new.
  by destruct (out_of_memory P (trace s)).
Qed.

Lemma uniform_operator_delete l : preserves uniform (operator_delete B l).
Proof. by apply uniform_objects. Qed.

Lemma uniform_construct_at l ctor :
  preserves uniform ctor -> preserves uniform (construct_at B l ctor).
Proof.
  intros Hc s Hs. specialize (Hc s Hs). unfold construct_at.
  destruct (ctor s); simpl in *; done.
Qed.

Lemma uniform_InPlace h b :
  V3.fits P (Body_layout B) Size = true ->
  preserves uniform (placement_new B h (InPlace b)).
Proof. intros Hfits. by apply uniform_placement_new. Qed.

Lemma uniform_Owner h p :
  V3.fits P (Body_layout B) Size = false ->
  preserves uniform (placement_new B h (Owner p)).
Proof. intros Hfits. by apply uniform_placement_new. Qed.

#[local] Hint Resolve uniform_InPlace uniform_Owner uniform_set_unique_ptr
  uniform_store uniform_end_lifetime uniform_log uniform_operator_new
  uniform_operator_delete : pres.

(** The code between the member functions and the primitive steps. *)
Ltac unfold_code :=
  unfold V3.Handle_copy_assign;
  unfold V3.Handle_ctor, V3.Handle_copy_ctor, V3.Handle_move_ctor,
    V3.Handle_dtor, V3.Handle_move_assign;
  unfold make_unique_copy, make_unique_default, unique_ptr_move_ctor,
    unique_ptr_move_assign;
  unfold unique_ptr_reset, unique_ptr_release, new_;
  unfold delete_;
  unfold destroy, construct_copy, construct_move, construct_default,
    assign_move.

Lemma uniform_Handle_ctor this :
  preserves uniform (V3.Handle_ctor P B Size this).
Proof. unfold_code. pres; apply uniform_construct_at; pres. Qed.

Lemma uniform_Handle_copy_ctor this other :
  preserves uniform (V3.Handle_copy_ctor P B Size this other).
Proof. unfold_code. pres; apply uniform_construct_at; pres. Qed.

Lemma uniform_Handle_move_ctor this other :
  preserves uniform (V3.Handle_move_ctor P B Size this other).
Proof. unfold_code. pres. Qed.

Lemma uniform_Handle_dtor this :
  preserves uniform (V3.Handle_dtor P B Size this).
Proof. unfold_code. pres. Qed.

Lemma uniform_Handle_move_assign this other :
  preserves uniform (V3.Handle_move_assign P B Size this other).
Proof. unfold_code. pres. Qed.

Lemma uniform_Handle_copy_assign this other :
  preserves uniform (V3.Handle_copy_assign P B Size this other).
Proof.
  unfold V3.Handle_copy_assign.
  apply preserves_bind; [apply preserves_query, query_alloca|intros tmp].
  apply preserves_bind; [apply uniform_Handle_copy_ctor|intros _].
  apply preserves_bind; [apply uniform_Handle_move_assign|intros _].
  apply uniform_Handle_dtor.
Qed.

(** C4. The representation is inline exactly when [sizeof(Body) <= Size]
    and [alignof(Body)] is at most the alignment of the aligned buffer of
    [Size] bytes, and indirect otherwise; when it is indirect and the
    static assertions hold, [std::unique_ptr<Body>] passes the same test
    (and [Size] is at least the size of a pointer).  The choice never looks at
    a state: the handle that [Handle()] builds holds its body in place
    exactly when the representation is inline, in whatever state it is
    called, and every member function, started in a store whose handles
    all have the representation of the instantiation, leaves such a
    store. *)
Theorem representation_choice :
  (V3.representation_of P B Size = V3.Inline
   <-> (sizeof (Body_layout B) <= Size)%N
       /\ (alignof (Body_layout B) <= aligned_storage_align P Size)%N)
  /\ (V3.representation_of P B Size = V3.Indirect
      <-> ~ ((sizeof (Body_layout B) <= Size)%N
             /\ (alignof (Body_layout B) <= aligned_storage_align P Size)%N))
  /\ (V3.static_asserts P B Size = true ->
      V3.representation_of P B Size = V3.Indirect ->
      (sizeof (void_ptr P) <= Size)%N
      /\ (sizeof (unique_ptr P) <= Size)%N
      /\ (alignof (unique_ptr P) <= aligned_storage_align P Size)%N)
  /\ (forall s this s1,
        V3.Handle_ctor P B Size this s = Returns tt s1 ->
        exists v, objects s1 !! this = Some v
                  /\ (V3.is_in_place v = true
                      <-> V3.representation_of P B Size = V3.Inline))
  /\ (forall s this other,
        uniform s ->
        after uniform (V3.Handle_ctor P B Size this s)
        /\ after uniform (V3.Handle_copy_ctor P B Size this other s)
        /\ after uniform (V3.Handle_move_ctor P B Size this other s)
        /\ after uniform (V3.Handle_dtor P B Size this s)
        /\ after uniform (V3.Handle_copy_assign P B Size this other s)
        /\ after uniform (V3.Handle_move_assign P B Size this other s)).
Proof.
  assert (Hfits : V3.fits P (Body_layout B) Size = true
                  <-> (sizeof (Body_layout B) <= Size)%N
                      /\ (alignof (Body_layout B) <= aligned_storage_align P Size)%N).
  { unfold V3.fits. rewrite andb_true_iff, !N.leb_le. done. }
  unfold V3.representation_of, V3.static_asserts, V3.BodyPtr_static_assert,
    V3.Size_static_assert.
  split; [|split; [|split; [|split]]].
  - rewrite <- Hfits. by destruct (V3.fits _ _ _).
  - rewrite <- Hfits. destruct (V3.fits _ _ _); split; try done.
    all: intros H; by destruct H.
  - destruct (V3.fits P (Body_layout B) Size); [done|].
    unfold V3.fits. rewrite !andb_true_iff, !N.leb_le. tauto.
  - intros s this s1. unfold_machine.
    destruct (V3.fits P (Body_layout B) Size); simpl.
    + destruct (Body_default B); simpl; [|done].
      intros [= <-]. simpl. rewrite lookup_insert_eq. by eexists.
    + destruct (out_of_memory P (trace s)); simpl; [done|].
      destruct (Body_default B); simpl; [|done].
      intros [= <-]. simpl. rewrite lookup_insert_eq. by eexists.
  - intros s this other Hs.
    repeat split;
      [ by apply uniform_Handle_ctor | by apply uniform_Handle_copy_ctor
      | by apply uniform_Handle_move_ctor | by apply uniform_Handle_dtor
      | by apply uniform_Handle_copy_assign | by apply uniform_Handle_move_assign ].
Qed.

(** **** Every allocation is matched by a deallocation or a live body *)

Lemma allocations_app t e :
  allocations (t ++ [e]) = allocations t + (if is_new e then 1 else 0).
Proof.
  unfold allocations. rewrite List.filter_app, length_app. simpl.
  by destruct (is_new e).
Qed.

Lemma deallocations_app t e :
  deallocations (t ++ [e]) = deallocations t + (if is_delete e then 1 else 0).
Proof.
  unfold deallocations. rewrite List.filter_app, length_app. simpl.
  by destruct (is_delete e).
Qed.

Lemma neutral_preserves {A} (m : M B A) : neutral m -> preserves accounted m.
Proof.
  intros Hm s Hs. specialize (Hm s).
  destruct (m s); simpl; try done; unfold accounted in *;
    destruct Hm as (Hh & Ha & Hd); rewrite Hh, Ha, Hd; done.
Qed.

Lemma neutral_bind {A C} (m : M B A) (k : A -> M B C) :
  neutral m -> (forall a, neutral (k a)) -> neutral (m ≫= k).
Proof.
  intros Hm Hk s. specialize (Hm s). unfold mbind, M_bind.
  destruct (m s) as [a s1| | | |]; simpl; try done.
  specialize (Hk a s1). destruct (k a s1); simpl; try done;
    destruct Hm as (Hh & Ha & Hd), Hk as (Hh' & Ha' & Hd');
    rewrite Hh', Ha', Hd'; done.
Qed.

Lemma neutral_query {A} (m : M B A) : query m -> neutral m.
Proof.
  intros Hm s. specialize (Hm s). destruct (m s); simpl; try done; by subst.
Qed.

Lemma neutral_log e :
  is_new e = false -> is_delete e = false -> neutral (log (B := B) e).
Proof.
  intros Hn Hd s. simpl. rewrite allocations_app, deallocations_app, Hn, Hd.
  split; [done|]. lia.
Qed.

Lemma neutral_construct_default : neutral (construct_default B).
Proof.
  unfold construct_default. destruct (Body_default B).
  - apply neutral_bind; [by apply neutral_log|]. intros _. by intros s.
  - by intros s.
Qed.

Lemma neutral_construct_copy p : neutral (construct_copy B p).
Proof.
  unfold construct_copy.
  apply neutral_bind; [apply neutral_query, query_load|]. intros b.
  destruct (Body_copy B b).
  - apply neutral_bind; [by apply neutral_log|]. intros _. by intros s.
  - by intros s.
Qed.

Lemma accounted_new_ ctor : neutral ctor -> preserves accounted (new_ P B ctor).
Proof.
  intros Hc s Hs. unfold new_, operator_new, construct_at, mbind, M_bind.
  destruct (out_of_memory P (trace s)); simpl; [done|].
  match goal with |- context [ctor ?s0] => specialize (Hc s0) end.
  destruct (ctor _) as [b s1|e s1| | |]; simpl in *; try done;
    destruct Hc as (Hh & Ha & Hd); unfold accounted in *; simpl.
  - rewrite map_size_insert_None by (rewrite Hh; apply fresh_loc_unused).
    rewrite Ha, Hd, Hh, allocations_app, deallocations_app. simpl. lia.
  - rewrite !allocations_app, !deallocations_app in *. simpl in *.
    rewrite Hh. lia.
Qed.

Lemma accounted_delete_ l : preserves accounted (delete_ B l).
Proof.
  intros s Hs. unfold_machine. simpl.
  destruct (heap s !! l) as [b|] eqn:Hl; simpl; [|done].
  unfold accounted in *. simpl.
  rewrite !allocations_app, !deallocations_app. simpl.
  assert (size (heap s) = S (size (delete l (heap s)))) as Hsize.
  { rewrite <- (insert_id (heap s) l b Hl) at 1.
    rewrite <- insert_delete_eq.
    apply map_size_insert_None, lookup_delete_eq. }
  lia.
Qed.

Lemma accounted_objects {A} (m : M B A) :
  (forall s, match m s with
             | Returns _ s1 | Throws _ s1 =>
                 heap s1 = heap s /\ trace s1 = trace s
             | Aborts | Undefined | Ill_formed => True
             end) ->
  preserves accounted m.
Proof.
  intros Hm. apply neutral_preserves. intros s. specialize (Hm s).
  destruct (m s); simpl; try done; by destruct Hm as [-> ->].
Qed.

Lemma accounted_placement_new h v : preserves accounted (placement_new B h v).
Proof. by apply accounted_objects. Qed.

Lemma accounted_end_lifetime h : preserves accounted (end_lifetime B h).
Proof. by apply accounted_objects. Qed.

Lemma accounted_set_unique_ptr h p : preserves accounted (set_unique_ptr B h p).
Proof.
  apply accounted_objects. intros s. unfold set_unique_ptr.
  by destruct (objects s !! h) as [[|]|].
Qed.

Lemma accounted_store p b : preserves accounted (store B p b).
Proof.
  intros s Hs. unfold store. destruct p as [|a|l]; simpl; [done| |].
  - by destruct (objects s !! a) as [[|]|].
  - destruct (heap s !! l) eqn:Hl; simpl; [|done].
    unfold accounted in *. simpl.
    rewrite map_size_insert_Some by eauto. done.
Qed.

Lemma accounted_log_body e :
  is_new e = false -> is_delete e = false ->
  preserves accounted (log (B := B) e).
Proof. intros. by apply neutral_preserves, neutral_log. Qed.

Lemma accounted_construct_default : preserves accounted (construct_default B).
Proof. apply neutral_preserves, neutral_construct_default. Qed.

Lemma accounted_construct_copy p : preserves accounted (construct_copy B p).
Proof. apply neutral_preserves, neutral_construct_copy. Qed.

#[local] Hint Resolve accounted_construct_default accounted_construct_copy : pres.
#[local] Hint Resolve accounted_placement_new accounted_end_lifetime
  accounted_set_unique_ptr accounted_store accounted_delete_
  accounted_log_body accounted_new_ neutral_construct_default
  neutral_construct_copy : pres.

Ltac unfold_handle :=
  unfold V3.Handle_ctor, V3.Handle_copy_ctor, V3.Handle_move_ctor,
    V3.Handle_dtor, V3.Handle_move_assign;
  unfold make_unique_copy, make_unique_default, unique_ptr_move_ctor,
    unique_ptr_move_assign;
  unfold unique_ptr_reset, unique_ptr_release;
  unfold construct_move, assign_move, destroy.

Lemma accounted_Handle_ctor this :
  preserves accounted (V3.Handle_ctor P B Size this).
Proof. unfold_handle. pres. Qed.

Lemma accounted_Handle_copy_ctor this other :
  preserves accounted (V3.Handle_copy_ctor P B Size this other).
Proof. unfold_handle. pres. Qed.

Lemma accounted_Handle_move_ctor this other :
  preserves accounted (V3.Handle_move_ctor P B Size this other).
Proof. unfold_handle. pres. Qed.

Lemma accounted_Handle_dtor this :
  preserves accounted (V3.Handle_dtor P B Size this).
Proof. unfold_handle. pres. Qed.

Lemma accounted_Handle_move_assign this other :
  preserves accounted (V3.Handle_move_assign P B Size this other).
Proof. unfold_handle. pres. Qed.

Lemma accounted_Handle_copy_assign this other :
  preserves accounted (V3.Handle_copy_assign P B Size this other).
Proof.
  unfold V3.Handle_copy_assign.
  apply preserves_bind; [apply preserves_query, query_alloca|intros tmp].
  apply preserves_bind; [apply accounted_Handle_copy_ctor|intros _].
  apply preserves_bind; [apply accounted_Handle_move_assign|intros _].
  apply accounted_Handle_dtor.
Qed.

(** C8. Inline: default construction, copy construction and move
    construction do not allocate, however they end, and they end as the
    body's constructors do: the new handle holds the new body in place and
    the free store is as it was.  Indirect: default construction throws
    [std::bad_alloc] at once when there is no memory; otherwise it makes
    exactly one allocation, at a location [l] that was unused, and then
    either returns with the new handle owning [l], or, when [Body()]
    throws, gives [l] back before the exception leaves; copy construction
    is ill-formed, so no copy of an indirect handle is ever made; move
    construction hands the pointer over without a step on the free store;
    destroying a handle that owns a live body at [l], or replacing its
    body by move assignment from another handle, destroys that body and
    deallocates [l], exactly once and nothing else; destroying a null
    handle deallocates nothing.  And whatever the member function and the
    state: if the allocations so far were matched one to one by the
    deallocations and the bodies still live, they are afterwards. *)
Theorem allocation_discipline (s : state B) (this other : addr) :
  (V3.fits P (Body_layout B) Size = true ->
   allocations (trace_after s (V3.Handle_ctor P B Size this s))
   = allocations (trace s)
   /\ allocations (trace_after s (V3.Handle_copy_ctor P B Size this other s))
      = allocations (trace s)
   /\ allocations (trace_after s (V3.Handle_move_ctor P B Size this other s))
      = allocations (trace s)
   /\ match Body_default B with
      | Some b =>
          V3.Handle_ctor P B Size this s
          = Returns tt (State (<[this := InPlace b]> (objects s)) (heap s)
                              (trace s ++ [EvDefault]))
      | None => V3.Handle_ctor P B Size this s = Throws body_exception s
      end
   /\ (forall b,
         objects s !! other = Some (InPlace b) ->
         match Body_copy B b with
         | Some b' =>
             V3.Handle_copy_ctor P B Size this other s
             = Returns tt (State (<[this := InPlace b']> (objects s)) (heap s)
                                 (trace s ++ [EvCopy]))
         | None =>
             V3.Handle_copy_ctor P B Size this other s
             = Throws body_exception s
         end
         /\ V3.Handle_move_ctor P B Size this other s
            = Returns tt (State (<[this := InPlace (Body_move B b).1]>
                                   (<[other := InPlace (Body_move B b).2]>
                                      (objects s)))
                                (heap s) (trace s ++ [EvMove]))))
  /\ (V3.fits P (Body_layout B) Size = false ->
      let l := fresh (dom (heap s)) in
      heap s !! l = None
      /\ (if out_of_memory P (trace s)
          then V3.Handle_ctor P B Size this s = Throws bad_alloc s
          else match Body_default B with
               | Some b =>
                   V3.Handle_ctor P B Size this s
                   = Returns tt (State (<[this := Owner (Some l)]> (objects s))
                                       (<[l := b]> (heap s))
                                       (trace s ++ [EvNew l; EvDefault]))
               | None =>
                   V3.Handle_ctor P B Size this s
                   = Throws body_exception
                       (State (objects s) (heap s)
                              (trace s ++ [EvNew l; EvDelete l]))
               end)
      /\ V3.Handle_copy_ctor P B Size this other s = Ill_formed
      /\ (forall po,
            this <> other ->
            objects s !! other = Some (Owner po) ->
            V3.Handle_move_ctor P B Size this other s
            = Returns tt (State (<[this := Owner po]>
                                   (<[other := Owner None]> (objects s)))
                                (heap s) (trace s)))
      /\ (forall l b,
            objects s !! this = Some (Owner (Some l)) ->
            heap s !! l = Some b ->
            V3.Handle_dtor P B Size this s
            = Returns tt (State (delete this (objects s))
                                (delete l (heap s))
                                (trace s ++ [EvDestroy; EvDelete l]))
            /\ (forall po,
                  this <> other ->
                  objects s !! other = Some (Owner po) ->
                  V3.Handle_move_assign P B Size this other s
                  = Returns tt (State (<[this := Owner po]>
                                         (<[other := Owner None]> (objects s)))
                                      (delete l (heap s))
                                      (trace s ++ [EvDestroy; EvDelete l]))))
      /\ (V3.null_handle s this ->
          V3.Handle_dtor P B Size this s
          = Returns tt (State (delete this (objects s)) (heap s) (trace s))))
  /\ (accounted s ->
      after accounted (V3.Handle_ctor P B Size this s)
      /\ after accounted (V3.Handle_copy_ctor P B Size this other s)
      /\ after accounted (V3.Handle_move_ctor P B Size this other s)
      /\ after accounted (V3.Handle_dtor P B Size this s)
      /\ after accounted (V3.Handle_copy_assign P B Size this other s)
      /\ after accounted (V3.Handle_move_assign P B Size this other s)).
Proof.
  name_fresh s. split; [|split].
  - intros Hfits. split; [|split; [|split; [|split]]].
    + exec. destruct (Body_default B); simpl; [|done].
      by rewrite allocations_app, Nat.add_0_r.
    + exec. destruct (objects s !! other) as [[b|]|]; simpl; try done.
      destruct (Body_copy B b); simpl; [|done].
      by rewrite allocations_app, Nat.add_0_r.
    + exec. destruct (objects s !! other) as [[b|] |] eqn:Ho; simpl; try done.
      rewrite Ho. simpl.
      by rewrite allocations_app, Nat.add_0_r.
    + destruct (Body_default B) eqn:Hb; by exec.
    + intros b Ho. split.
      * destruct (Body_copy B b) eqn:Hb; by exec.
      * by exec.
  - intros Hfits. cbv zeta.
    split; [done|]. split; [|split; [|split; [|split]]].
    + destruct (out_of_memory P (trace s)) eqn:Hoom; [by exec|].
      destruct (Body_default B) eqn:Hb; by exec.
    + by exec.
    + intros po Hne Ho. by exec.
    + intros l b Hthis Hl. split.
      * exec. by tidy.
      * intros po Hne Ho. by exec.
    + unfold V3.null_handle. intros Hnull. exec. by tidy.
  - intros Hs.
    repeat split;
      [ by apply accounted_Handle_ctor | by apply accounted_Handle_copy_ctor
      | by apply accounted_Handle_move_ctor | by apply accounted_Handle_dtor
      | by apply accounted_Handle_copy_assign
      | by apply accounted_Handle_move_assign ].
Qed.

End V3_facts.

(** *** The theorems at work on concrete stores *)

(** [Handle<LargeBuffer, 32>], whose body does not fit: neither the copy
    of a handle that owns a body nor the copy of a moved-from one
    compiles.  The handle of HandleImpl.v2.h copies both. *)
Lemma copy_ctor_indirect_witness :
  V3.Handle_copy_ctor lp64 LargeBuffer 32 3 1 large_store = Ill_formed
  /\ V3.Handle_copy_ctor lp64 LargeBuffer 32 3 2 large_store = Ill_formed
  /\ V2.Handle_copy_ctor lp64 LargeBuffer 3 2 large_store
     = Returns tt (State (<[3%positive := Owner None]> (objects large_store))
                         (heap large_store) [])
  /\ V2.Handle_copy_ctor lp64 LargeBuffer 3 1 large_store
     = Returns tt (State (<[3%positive := Owner (Some 2%positive)]>
                            (objects large_store))
                         (<[2%positive := 7%Z]> (heap large_store))
                         [EvNew 2; EvCopy]).
Proof.
  split; [|split; [|split]].
  - exact (proj1 (copy_ctor_indirect lp64 LargeBuffer 32 large_store 3 1)
             eq_refl).
  - exact (proj1 (copy_ctor_indirect lp64 LargeBuffer 32 large_store 3 2)
             eq_refl).
  - destruct (copy_ctor_indirect lp64 LargeBuffer 32 large_store 3 2)
      as [_ H].
    destruct H as [H _]; [discriminate|]. exact (H eq_refl).
  - destruct (copy_ctor_indirect lp64 LargeBuffer 32 large_store 3 1)
      as [_ H].
    destruct H as [_ H]; [discriminate|].
    exact (proj2 (H 1%positive 7%Z 7%Z eq_refl eq_refl eq_refl eq_refl)).
Defined.

Lemma move_ctor_valid_witness :
  (exists s1,
     V3.Handle_move_ctor lp64 LargeBuffer 32 3 1 large_store = Returns tt s1
     /\ value s1 3 = Some 7%Z
     /\ V3.null_handle s1 1 /\ trace s1 = []
     /\ V3.read lp64 LargeBuffer 32 3 s1 = Ill_formed
     /\ V3.Handle_copy_ctor lp64 LargeBuffer 32 4 1 s1 = Ill_formed)
  /\ (exists s1,
        V3.Handle_move_ctor lp64 SmallCounter 32 3 1 small_store = Returns tt s1
        /\ V3.read lp64 SmallCounter 32 3 s1 = Returns 7%Z s1
        /\ defined (V3.Handle_copy_ctor lp64 SmallCounter 32 4 1 s1)).
Proof.
  split.
  - destruct (move_ctor_valid lp64 LargeBuffer 32 large_store 3 1 7%Z)
      as (s1 & H1 & _ & H2 & _ & H3 & _ & H4).
    + exists 1%positive, 7%Z. split; reflexivity.
    + reflexivity.
    + discriminate.
    + discriminate.
    + exists s1.
      change (V3.null_handle s1 1 /\ trace s1 = []
              /\ V3.read lp64 LargeBuffer 32 3 s1 = Ill_formed) in H3.
      specialize (H4 4%positive).
      change (V3.Handle_copy_ctor lp64 LargeBuffer 32 4 1 s1 = Ill_formed) in H4.
      tauto.
  - destruct (move_ctor_valid lp64 SmallCounter 32 small_store 3 1 7%Z)
      as (s1 & H1 & _ & _ & _ & H3 & _ & H4).
    + exists 7%Z. reflexivity.
    + reflexivity.
    + discriminate.
    + intros _ b; reflexivity.
    + exists s1. split; [exact H1|].
      split; [exact (proj2 (proj2 H3))|]. exact (H4 4%positive).
Defined.

(** [Handle<SmallCounter, 32>] and the handle of HandleImpl.v2.h assign
    by copy; [Handle<LargeBuffer, 32>] does not compile the assignment.
    When the copy for the temporary throws, nothing has changed. *)
Lemma copy_assign_strong_witness :
  V3.Handle_copy_assign lp64 LargeBuffer 32 2 1 large_store = Ill_formed
  /\ (exists s1,
        V3.Handle_copy_assign lp64 SmallCounter 32 2 1 small_store
        = Returns tt s1
        /\ value s1 2 = Some 7%Z
        /\ value s1 1 = Some 7%Z)
  /\ (exists s1,
        V2.Handle_copy_assign lp64 LargeBuffer 2 1 large_store = Returns tt s1
        /\ value s1 2 = Some 7%Z
        /\ value s1 1 = Some 7%Z)
  /\ V2.Handle_copy_assign lp64 Fragile 2 1 fragile_store
     = Throws body_exception
         (State (objects fragile_store) (heap fragile_store)
                [EvNew 3; EvDelete 3]).
Proof.
  split; [|split; [|split]].
  - destruct (copy_assign_strong lp64 LargeBuffer 32 large_store 2 1)
      as [H _].
    + intros l _ H1 H2. vm_compute in H1, H2. congruence.
    + intros b b' H. simpl in H. congruence.
    + exact (H eq_refl).
  - destruct (copy_assign_strong lp64 SmallCounter 32 small_store 2 1)
      as (_ & H & _).
    + intros l _ H1 H2. vm_compute in H1, H2. congruence.
    + intros b b' H. simpl in H. congruence.
    + specialize (H eq_refl).
      destruct (V3.Handle_copy_ctor _ _ _ _ _ _) as [[] s0|e s0| | |] eqn:E;
        [|vm_compute in E; discriminate..].
      destruct H as (s1 & Ha & Hv1 & Hv2 & _).
      * left. exists 0%Z. reflexivity.
      * left. exists 7%Z. reflexivity.
      * intros d r. reflexivity.
      * exists s1. split; [exact Ha|]. rewrite Hv1, Hv2. split; reflexivity.
  - destruct (copy_assign_strong lp64 LargeBuffer 32 large_store 2 1)
      as (_ & _ & H).
    + intros l _ H1 H2. vm_compute in H1, H2. congruence.
    + intros b b' H. simpl in H. congruence.
    + destruct (V2.Handle_copy_ctor _ _ _ _ _) as [[] s0|e s0| | |] eqn:E;
        [|vm_compute in E; discriminate..].
      destruct H as (s1 & Ha & Hv1 & Hv2 & _).
      * left. reflexivity.
      * right. exists 1%positive, 7%Z. split; reflexivity.
      * exists s1. split; [exact Ha|]. rewrite Hv1, Hv2. split; reflexivity.
  - destruct (copy_assign_strong lp64 Fragile 32 fragile_store 2 1)
      as (_ & _ & H).
    + intros l _ H1 H2. vm_compute in H1, H2. congruence.
    + intros b b' H. simpl in H. destruct (b <? 0)%Z; congruence.
    + destruct (V2.Handle_copy_ctor _ _ _ _ _) as [[] s0|e s0| | |] eqn:E;
        [vm_compute in E; discriminate| |vm_compute in E; discriminate..].
      vm_compute in E. injection E as <- <-.
      refine (proj1 (H _ _)).
      * right. exists 2%positive, 5%Z. split; reflexivity.
      * right. exists 1%positive, (-1)%Z. split; reflexivity.
Defined.

Lemma copy_is_deep_witness :
  (exists s1 s2,
     V3.Handle_copy_ctor lp64 SmallCounter 32 3 1 small_store = Returns tt s1
     /\ V3.mutate lp64 SmallCounter 32 3 Z.succ s1 = Returns tt s2
     /\ V3.read lp64 SmallCounter 32 3 s2 = Returns 8%Z s2
     /\ V3.read lp64 SmallCounter 32 1 s2 = Returns 7%Z s2)
  /\ V3.Handle_copy_ctor lp64 LargeBuffer 32 3 1 large_store = Ill_formed
  /\ V3.read lp64 LargeBuffer 32 1 large_store = Ill_formed
  /\ V3.mutate lp64 LargeBuffer 32 1 Z.succ large_store = Ill_formed.
Proof.
  split.
  - pose proof (copy_is_deep lp64 SmallCounter 32 small_store 3 1 7%Z) as H.
    change (V3.fits lp64 (Body_layout SmallCounter) 32) with true in H.
    cbv iota in H.
    destruct (V3.Handle_copy_ctor _ _ _ _ _ _) as [[] s1|e s1| | |] eqn:E;
      [|vm_compute in E; discriminate..].
    destruct H as (_ & _ & _ & H);
      [ exists 7%Z; reflexivity | reflexivity | discriminate
      | intros b b' Hb; simpl in Hb; congruence |].
    destruct (H Z.succ) as (s2 & Hm & H3 & H1).
    exists s1, s2. done.
  - pose proof (copy_is_deep lp64 LargeBuffer 32 large_store 3 1 7%Z) as H.
    change (V3.fits lp64 (Body_layout LargeBuffer) 32) with false in H.
    cbv iota in H.
    destruct H as (H1 & H2 & H3);
      [ exists 1%positive, 7%Z; split; reflexivity | reflexivity | discriminate
      | intros b b' Hb; simpl in Hb; congruence |].
    split; [exact H1|]. split; [exact H2|]. exact (H3 Z.succ).
Defined.

Lemma self_assignment_witness :
  V3.Handle_move_assign lp64 LargeBuffer 32 1 1 large_store
  = Returns tt large_store
  /\ V3.Handle_copy_assign lp64 LargeBuffer 32 1 1 large_store = Ill_formed
  /\ (exists s1,
        V3.Handle_copy_assign lp64 SmallCounter 32 1 1 small_store
        = Returns tt s1
        /\ value s1 1 = Some 7%Z).
Proof.
  split; [|split].
  - destruct (self_assignment lp64 LargeBuffer 32 large_store 1) as [_ H];
      [ left; exists 1%positive, 7%Z; split; reflexivity
      | intros b b' Hb; simpl in Hb; congruence | discriminate | exact H ].
  - destruct (self_assignment lp64 LargeBuffer 32 large_store 1) as [H _];
      [ left; exists 1%positive, 7%Z; split; reflexivity
      | intros b b' Hb; simpl in Hb; congruence | discriminate | exact H ].
  - destruct (self_assignment lp64 SmallCounter 32 small_store 1) as [H _];
      [ left; exists 7%Z; reflexivity
      | intros b b' Hb; simpl in Hb; congruence | intros _ d r; reflexivity | ].
    change (V3.fits lp64 (Body_layout SmallCounter) 32) with true in H.
    cbv iota in H.
    destruct (V3.Handle_copy_assign _ _ _ _ _ _) as [[] s1|e s1| | |] eqn:E;
      [|vm_compute in E; discriminate..].
    exists s1. split; [reflexivity|]. by rewrite (proj1 H).
Defined.

(** Going through a handle to its body: in place it reads the body; with
    [Handle<LargeBuffer, 32>] the accessor does not compile, for the
    handle that owns a body as for the moved-from one; the handle of
    HandleImpl.v2.h fails its assertion on the moved-from one. *)
Lemma dereference_contract_witness :
  V3.read lp64 SmallCounter 32 1 small_store = Returns 7%Z small_store
  /\ V3.operator_arrow lp64 LargeBuffer 32 1 large_store = Ill_formed
  /\ V3.operator_arrow lp64 LargeBuffer 32 2 large_store = Ill_formed
  /\ V2.operator_arrow lp64 LargeBuffer 2 large_store = Aborts
  /\ V2.operator_arrow lp64 LargeBuffer 1 large_store
     = Returns (PHeap 1) large_store.
Proof.
  split; [|split; [|split; [|split]]].
  - destruct (dereference_contract lp64 SmallCounter 32 small_store 1)
      as (_ & H & _).
    exact (proj2 (proj2 (H 7%Z eq_refl eq_refl))).
  - destruct (dereference_contract lp64 LargeBuffer 32 large_store 1)
      as (H & _).
    exact (proj1 (H eq_refl)).
  - destruct (dereference_contract lp64 LargeBuffer 32 large_store 2)
      as (H & _).
    exact (proj1 (H eq_refl)).
  - destruct (dereference_contract lp64 LargeBuffer 32 large_store 2)
      as (_ & _ & H & _).
    exact (H eq_refl).
  - destruct (dereference_contract lp64 LargeBuffer 32 large_store 1)
      as (_ & _ & _ & H).
    exact (proj1 (H 1%positive 7%Z eq_refl eq_refl)).
Defined.

(** [Handle<LargeBuffer, 32>]: one allocation for a default handle, none
    for a move, no copy at all; [Handle<SmallCounter, 32>] copies in
    place. *)
Lemma allocation_discipline_witness :
  V3.Handle_ctor lp64 LargeBuffer 32 3 large_store
  = Returns tt (State (<[3%positive := Owner (Some 2%positive)]>
                         (objects large_store))
                      (<[2%positive := 0%Z]> (heap large_store))
                      [EvNew 2; EvDefault])
  /\ V3.Handle_copy_ctor lp64 LargeBuffer 32 3 1 large_store = Ill_formed
  /\ V3.Handle_copy_ctor lp64 SmallCounter 32 3 1 small_store
     = Returns tt (State (<[3%positive := InPlace (7%Z : Body SmallCounter)]>
                            (objects small_store))
                         ∅ [EvCopy]).
Proof.
  split; [|split].
  - destruct (allocation_discipline lp64 LargeBuffer 32 large_store 3 1)
      as (_ & H & _).
    exact (proj1 (proj2 (H eq_refl))).
  - destruct (allocation_discipline lp64 LargeBuffer 32 large_store 3 1)
      as (_ & H & _).
    exact (proj1 (proj2 (proj2 (H eq_refl)))).
  - destruct (allocation_discipline lp64 SmallCounter 32 small_store 3 1)
      as (H & _).
    destruct (H eq_refl) as (_ & _ & _ & _ & Hc).
    exact (proj1 (Hc 7%Z eq_refl)).
Defined.

(** *** The scenarios of the specification *)

(** [Handle<SmallCounter, 32>]: held in place; a default handle reads 0,
    and after a copy and an increment of the copy the original still
    reads 0; nothing was allocated. *)
Example SmallCounter_scenario :
  V3.representation_of lp64 SmallCounter 32 = V3.Inline
  /\ match (V3.Handle_ctor lp64 SmallCounter 32 1 ;;
            V3.Handle_copy_ctor lp64 SmallCounter 32 2 1 ;;
            V3.mutate lp64 SmallCounter 32 2 Z.succ ;;
            x ← V3.read lp64 SmallCounter 32 1;
            y ← V3.read lp64 SmallCounter 32 2;
            mret (x, y)) (empty_state SmallCounter) with
     | Returns v s => v = (0%Z, 1%Z) /\ allocations (trace s) = 0
     | _ => False
     end.
Proof. split; [reflexivity|]. vm_compute. done. Qed.

(** [Handle<LargeBuffer, 32>]: indirect; default construction allocates
    once, the move transfers the pointer without allocating, destroying
    the moved-from source deallocates nothing, and destroying the target
    deallocates once.  A program that copies such a handle, or goes
    through it to the buffer, does not compile. *)
Example LargeBuffer_scenario :
  V3.representation_of lp64 LargeBuffer 32 = V3.Indirect
  /\ (V3.Handle_ctor lp64 LargeBuffer 32 1 ;;
      V3.Handle_move_ctor lp64 LargeBuffer 32 2 1 ;;
      V3.Handle_dtor lp64 LargeBuffer 32 1 ;;
      V3.Handle_dtor lp64 LargeBuffer 32 2) (empty_state LargeBuffer)
     = Returns tt (State ∅ ∅ [EvNew 1; EvDefault; EvDestroy; EvDelete 1])
  /\ (V3.Handle_ctor lp64 LargeBuffer 32 1 ;;
      V3.Handle_copy_ctor lp64 LargeBuffer 32 2 1) (empty_state LargeBuffer)
     = Ill_formed
  /\ (V3.Handle_ctor lp64 LargeBuffer 32 1 ;;
      V3.read lp64 LargeBuffer 32 1) (empty_state LargeBuffer)
     = Ill_formed.
Proof. repeat split; vm_compute; reflexivity. Qed.

(** Dereferencing the moved-from handle 2 of [large_store] with the
    handle of HandleImpl.v2.h: the assertion fails in a debug build, and
    a release build returns the null pointer. *)
Example null_dereference :
  V2.operator_arrow lp64 LargeBuffer 2 large_store = Aborts
  /\ V2.operator_arrow lp64_release LargeBuffer 2 large_store
     = Returns PNull large_store.
Proof. repeat split; vm_compute; reflexivity. Qed.

(** With no memory left, default construction of an indirect handle
    throws and builds nothing; an inline handle does not need memory. *)
Example exhausted_memory :
  V3.Handle_ctor lp64_exhausted LargeBuffer 32 1 (empty_state LargeBuffer)
  = Throws bad_alloc (empty_state LargeBuffer)
  /\ V3.Handle_ctor lp64_exhausted SmallCounter 32 1 (empty_state SmallCounter)
     = Returns tt (State {[1%positive := InPlace (0%Z : Body SmallCounter)]}
                         ∅ [EvDefault]).
Proof. repeat split; vm_compute; reflexivity. Qed.

(** At the default [Size], on a platform where [std::unique_ptr<Body>] is
    laid out like a pointer whose alignment the buffer has, the static
    assertions hold for every body type. *)
Lemma default_Size_static_asserts (P : platform) (B : body_type) :
  unique_ptr P = void_ptr P ->
  (alignof (void_ptr P) <= aligned_storage_align P (V3.default_Size P))%N ->
  V3.static_asserts P B (V3.default_Size P) = true.
Proof.
  intros Hptr Halign.
  unfold V3.static_asserts, V3.Size_static_assert,
    V3.BodyPtr_static_assert,
    V3.default_Size.
  assert (sizeof (void_ptr P) <= 4 * sizeof (void_ptr P))%N as Hsize by lia.
  apply andb_true_iff. split; [by apply N.leb_le|].
  destruct (V3.fits P (Body_layout B) _); [done|].
  unfold V3.fits. rewrite Hptr.
  apply andb_true_iff. split; by apply N.leb_le.
Qed.

End HandleFacts.

(** * Properties of the survival protocol *)

Module SurvivalFacts.
Import Survival.

(** C9, as stated, fails: in a debug build with [0 <= 1 <= 2], the default
    implementation throws for [truncated] at [T = 2], [t = 1], because
    [survival_prob(2)] throws, although [survival_prob(1)] is [0.5] and
    not zero. *)
Lemma throws_without_zero :
  Survival_conditional_survival_prob_impl false truncated 2 1 = computation_error
  /\ survival_prob false truncated 1 = Value 0.5
  /\ PrimFloat.eqb 0.5 0 = false.
Proof. repeat split; vm_compute; reflexivity. Qed.

(** The documented case: the system has not survived until [t]. *)
Example throws_on_zero :
  survival_prob false step 1 = Value 0
  /\ Survival_conditional_survival_prob_impl false step 2 1 = computation_error.
Proof. split; vm_compute; reflexivity. Qed.

Example quotient :
  Survival_conditional_survival_prob_impl false truncated 1 0 = Value 0.5.
Proof. vm_compute. reflexivity. Qed.

(** C9, amended.  In a debug build the default implementation fails an
    assertion unless [0 <= t <= T].  When the assertions pass or are
    compiled out, it throws [pdg::computation_error] exactly when
    [survival_prob(t)] throws, or [survival_prob(t) == 0], or
    [survival_prob(t)] is not zero and [survival_prob(T)] throws; and when
    [survival_prob(t)] returns a value that is not zero and
    [survival_prob(T)] returns a value, it returns exactly their
    quotient. *)
Theorem conditional_survival_prob_default
    (NDEBUG : bool) (self : Survival) (T t : Time) :
  (NDEBUG = false ->
   PrimFloat.leb 0 t && PrimFloat.leb t T = false ->
   Survival_conditional_survival_prob_impl NDEBUG self T t = assertion_failed)
  /\ (NDEBUG || (PrimFloat.leb 0 t && PrimFloat.leb t T) = true ->
      (Survival_conditional_survival_prob_impl NDEBUG self T t = computation_error
       <-> survival_prob NDEBUG self t = computation_error
           \/ (exists S_t, survival_prob NDEBUG self t = Value S_t
                           /\ PrimFloat.eqb S_t 0 = true)
           \/ (exists S_t, survival_prob NDEBUG self t = Value S_t
                           /\ PrimFloat.eqb S_t 0 = false
                           /\ survival_prob NDEBUG self T = computation_error))
      /\ (forall S_t S_T,
            survival_prob NDEBUG self t = Value S_t ->
            PrimFloat.eqb S_t 0 = false ->
            survival_prob NDEBUG self T = Value S_T ->
            Survival_conditional_survival_prob_impl NDEBUG self T t
            = Value (PrimFloat.div S_T S_t))).
Proof.
  unfold Survival_conditional_survival_prob_impl, assert. split.
  - intros -> Hpre. simpl.
    destruct (PrimFloat.leb 0 t); simpl in *; [by rewrite Hpre|done].
  - intros Hpre.
    assert (NDEBUG || PrimFloat.leb 0 t = true
            /\ NDEBUG || PrimFloat.leb t T = true) as [-> ->].
    { destruct NDEBUG; simpl in *; [done|]. by apply andb_true_iff. }
    destruct (survival_prob NDEBUG self t) as [S_t| |] eqn:Ht.
    + destruct (PrimFloat.eqb S_t 0) eqn:Hz.
      * split; [|intros ? ? [= <-]; congruence].
        split; [eauto 6|done].
      * destruct (survival_prob NDEBUG self T) as [S_T| |] eqn:HT.
        -- split; [|by intros ? ? [= <-] _ [= <-]].
           split; [done|].
           intros [?|[(x & [= <-] & ?)|(x & [= <-] & ? & ?)]]; congruence.
        -- split; [|intros; congruence]. split; [eauto 8|done].
        -- split; [|intros; congruence]. split; [done|].
           intros [?|[(x & [= <-] & ?)|(x & [= <-] & ? & ?)]]; congruence.
    + split; [|intros; congruence]. split; [eauto|done].
    + split; [|intros; congruence]. split; [done|].
      intros [?|[(x & ? & ?)|(x & ? & ?)]]; congruence.
Qed.

End SurvivalFacts.

(** * Properties of the printable protocol *)

Module PrintableFacts.
Import Mem Printable.

(** C10. [getDefault()] is [Default.clone()], and printing [Default]
    writes nothing.  When [getDefault()] returns, its pointer is not null
    and points to an object that was not in the free store before, so
    that nobody else owns it; printing that object writes nothing; nothing
    was written and no other object changed.  It returns whenever memory
    is available, and otherwise throws [std::bad_alloc] with nothing
    changed. *)
Theorem getDefault_null (out_of_memory : world -> bool) (w : world) :
  getDefault out_of_memory w = clone out_of_memory Default w
  /\ print Default w = w
  /\ match getDefault out_of_memory w with
     | Returns p w1 =>
         out_of_memory w = false
         /\ exists l,
              p = Some l
              /\ free_store w !! l = None
              /\ free_store w1 = <[l := NullPrintableValue]> (free_store w)
              /\ (forall o, free_store w1 !! l = Some o -> print o w1 = w1)
              /\ stdout w1 = stdout w
     | Throws_bad_alloc w1 => out_of_memory w = true /\ w1 = w
     end
  /\ (out_of_memory w = false ->
      exists l w1, getDefault out_of_memory w = Returns (Some l) w1).
Proof.
  unfold getDefault, clone, clone_impl, Default, make_unique, print, print_impl.
  repeat split.
  - destruct (out_of_memory w) eqn:Hoom; [done|].
    split; [done|]. eexists. split; [done|].
    split; [apply not_elem_of_dom, is_fresh|]. simpl.
    split; [done|]. split; [|done].
    intros o. rewrite lookup_insert_eq. by intros [= <-].
  - intros ->. eauto.
Qed.

End PrintableFacts.

(** * Ownership, frames and whole programs *)

Module HandleSafety.
Import Mem Examples Contract Ownership Client HandleFacts.

Section Safety.
Context (P : platform) (B : body_type) (Size : N).

(** The facts a lookup in an updated store stands for. *)
Ltac destruct_lookups :=
  repeat match goal with
         | H : <[_ := _]> _ !! _ = Some _ |- _ =>
             apply lookup_insert_Some in H as [[? ?]|[? H]]
         | H : delete _ _ !! _ = Some _ |- _ =>
             apply lookup_delete_Some in H as [? H]
         end;
  simplify_eq.

(** Two owners of one body are one handle, and an owned body is live. *)
Ltac clash Hlive Hexcl :=
  try (repeat match goal with
              | H1 : objects ?s !! ?h1 = Some (Owner (Some ?l)),
                H2 : objects ?s !! ?h2 = Some (Owner (Some ?l)) |- _ =>
                  lazymatch goal with
                  | _ : h1 = h2 |- _ => fail
                  | _ => assert (h1 = h2) by exact (Hexcl _ _ _ H1 H2)
                  end
              end;
       congruence);
  try (match goal with
       | H : objects ?s !! _ = Some (Owner (Some ?l)),
         Hn : heap ?s !! ?l = None |- _ =>
           destruct (Hlive _ _ H) as [? ?]; congruence
       end).

Ltac live_goal Hlive Hexcl :=
  lazymatch goal with
  | |- is_Some (delete ?i _ !! ?j) =>
      apply lookup_delete_is_Some; split;
      [ intros ->; clash Hlive Hexcl | live_goal Hlive Hexcl ]
  | |- is_Some (<[?i := _]> _ !! ?j) =>
      apply lookup_insert_is_Some';
      first [ left; reflexivity | right; live_goal Hlive Hexcl ]
  | |- is_Some (_ !! _) => eauto
  end.

Ltac sound_goal Hs :=
  let Hlive := fresh "Hlive" in
  let Hexcl := fresh "Hexcl" in
  destruct Hs as [Hlive Hexcl]; unfold sound, owns in *; simpl; split;
  [ intros ? ? Hown; destruct_lookups; live_goal Hlive Hexcl
  | intros ? ? ? Hown1 Hown2; destruct_lookups;
    first [ done | clash Hlive Hexcl ] ].

(** Symbolic execution from an arbitrary store: where the code looks
    something up that is not known yet, every answer is followed. *)
Ltac split_step :=
  match goal with
  | |- context [match ?x with _ => _ end] =>
      match x with
      | <[?i := _]> _ !! ?j => destruct (decide (i = j)) as [->|?]
      | delete ?i _ !! ?j => destruct (decide (i = j)) as [->|?]
      | objects _ !! _ => destruct x as [[?|[?|]]|] eqn:?
      | heap _ !! _ => destruct x eqn:?
      | out_of_memory _ _ => destruct x eqn:?
      | Body_copy _ _ => destruct x eqn:?
      | Body_default _ => destruct x eqn:?
      | V3.fits _ _ _ => destruct x eqn:?
      | NDEBUG _ => destruct x eqn:?
      end
  end.

Ltac explore s :=
  pose proof (fresh_addr_unused B s) as Htmp;
  pose proof (fresh_loc_unused B s) as Hnew;
  unfold_machine; simpl;
  repeat (first [exec_step | split_step]; simpl);
  rewrite <- ?app_assoc; simpl.

Lemma sound_Handle_ctor (s : state B) (this : addr) :
  sound s -> after sound (V3.Handle_ctor P B Size this s).
Proof.
  intros Hs. explore s; try done; sound_goal Hs.
Qed.

Lemma sound_Handle_copy_ctor (s : state B) (this other : addr) :
  sound s -> after sound (V3.Handle_copy_ctor P B Size this other s).
Proof.
  intros Hs. explore s; try done; sound_goal Hs.
Qed.

Lemma sound_Handle_move_ctor (s : state B) (this other : addr) :
  sound s -> after sound (V3.Handle_move_ctor P B Size this other s).
Proof.
  intros Hs. explore s; try done; sound_goal Hs.
Qed.

Lemma sound_Handle_dtor (s : state B) (this : addr) :
  sound s -> after sound (V3.Handle_dtor P B Size this s).
Proof.
  intros Hs. explore s; try done; sound_goal Hs.
Qed.

Lemma sound_Handle_move_assign (s : state B) (this other : addr) :
  sound s -> after sound (V3.Handle_move_assign P B Size this other s).
Proof.
  intros Hs. explore s; try done; sound_goal Hs.
Qed.

(** How an operation that is a sequence ends. *)
Lemma after_bind {A C} (I : state B -> Prop) (m : M B A) (k : A -> M B C) s :
  match m s with
  | Returns a s1 => after I (k a s1)
  | Throws _ s1 => I s1
  | Aborts | Undefined | Ill_formed => True
  end ->
  after I ((m ≫= k) s).
Proof. unfold mbind, M_bind. by destruct (m s). Qed.

Lemma sound_Handle_copy_assign (s : state B) (this other : addr) :
  sound s -> after sound (V3.Handle_copy_assign P B Size this other s).
Proof.
  revert s. change (preserves sound (V3.Handle_copy_assign P B Size this other)).
  unfold V3.Handle_copy_assign.
  apply preserves_bind; [apply preserves_query, query_alloca|intros tmp].
  apply preserves_bind; [intros s; apply sound_Handle_copy_ctor|intros _].
  apply preserves_bind; [intros s; apply sound_Handle_move_assign|intros _].
  intros s; apply sound_Handle_dtor.
Qed.

Lemma sound_mutate (s : state B) (h : addr) f :
  sound s -> after sound (V3.mutate P B Size h f s).
Proof. intros Hs. explore s; try done; sound_goal Hs. Qed.

(** The owner of a live body in an updated store is looked for among the
    handles at hand. *)
Ltac owner_lookup :=
  simpl;
  repeat first [ rewrite lookup_insert_eq
               | rewrite lookup_insert_ne by congruence
               | rewrite lookup_delete_ne by congruence ];
  congruence.

Ltac find_owner :=
  match goal with
  | h : positive |- _ => exists h; owner_lookup
  end.

Ltac tight_goal Ht :=
  unfold tight, owns in *; simpl;
  let l := fresh "l" in
  let Hl := fresh "Hl" in
  intros l Hl;
  repeat first
    [ apply lookup_delete_is_Some in Hl as [? Hl]
    | apply lookup_insert_is_Some in Hl as [?|[? Hl]]; [subst|] ];
  try find_owner;
  let h := fresh "h" in
  let Hh := fresh "Hh" in
  destruct (Ht _ Hl) as [h Hh];
  repeat match goal with
         | x : positive |- _ =>
             lazymatch goal with
             | _ : x = h |- _ => fail
             | _ : x <> h |- _ => fail
             | _ => first [ constr_eq x h; fail 1
                          | destruct (decide (x = h)); [subst|] ]
             end
         end;
  find_owner.

Lemma tight_Handle_ctor (s : state B) (this : addr) :
  objects s !! this = None ->
  tight s -> after tight (V3.Handle_ctor P B Size this s).
Proof. intros Hthis Ht. explore s; try done; tight_goal Ht. Qed.

Lemma tight_Handle_copy_ctor (s : state B) (this other : addr) :
  objects s !! this = None ->
  tight s -> after tight (V3.Handle_copy_ctor P B Size this other s).
Proof. intros Hthis Ht. explore s; try done; tight_goal Ht. Qed.

Lemma tight_Handle_move_ctor (s : state B) (this other : addr) :
  objects s !! this = None ->
  tight s -> after tight (V3.Handle_move_ctor P B Size this other s).
Proof. intros Hthis Ht. explore s; try done; tight_goal Ht. Qed.

Lemma tight_Handle_dtor (s : state B) (this : addr) :
  tight s -> after tight (V3.Handle_dtor P B Size this s).
Proof. intros Ht. explore s; try done; tight_goal Ht. Qed.

Lemma tight_Handle_move_assign (s : state B) (this other : addr) :
  tight s -> after tight (V3.Handle_move_assign P B Size this other s).
Proof. intros Ht. explore s; try done; tight_goal Ht. Qed.

Lemma tight_mutate (s : state B) (h : addr) f :
  tight s -> after tight (V3.mutate P B Size h f s).
Proof. intros Ht. explore s; try done; tight_goal Ht. Qed.

Lemma tight_Handle_copy_assign (s : state B) (this other : addr) :
  tight s -> after tight (V3.Handle_copy_assign P B Size this other s).
Proof.
  intros Ht. unfold V3.Handle_copy_assign.
  apply after_bind. simpl. apply after_bind.
  pose proof (tight_Handle_copy_ctor s _ other (fresh_addr_unused B s) Ht) as H1.
  destruct (V3.Handle_copy_ctor _ _ _ _ _ _) as [[] s1|e s1| | |]; try done.
  apply after_bind.
  pose proof (tight_Handle_move_assign s1 this (fresh (dom (objects s))) H1) as H2.
  destruct (V3.Handle_move_assign _ _ _ _ _ _) as [[] s2|e s2| | |]; try done.
  by apply tight_Handle_dtor.
Qed.

Ltac kept_goal s Hs h3 :=
  let Hlive := fresh "Hlive" in
  let Hexcl := fresh "Hexcl" in
  destruct Hs as [Hlive Hexcl]; unfold kept, value, owns in *; simpl;
  repeat first [ rewrite lookup_insert_ne by congruence
               | rewrite lookup_delete_ne by congruence ];
  split; [done|];
  destruct (objects s !! h3) as [[?|[?|]]|] eqn:?; try done;
  repeat first
    [ rewrite lookup_delete_ne by (intros ?; subst; clash Hlive Hexcl)
    | rewrite lookup_insert_ne by (intros ?; subst; clash Hlive Hexcl) ];
  done.

Lemma kept_Handle_ctor (s : state B) (this h3 : addr) :
  sound s -> h3 <> this ->
  after (kept s h3) (V3.Handle_ctor P B Size this s).
Proof. intros Hs Hne. explore s; try done; kept_goal s Hs h3. Qed.

Lemma kept_Handle_copy_ctor (s : state B) (this other h3 : addr) :
  sound s -> h3 <> this ->
  after (kept s h3) (V3.Handle_copy_ctor P B Size this other s).
Proof. intros Hs Hne. explore s; try done; kept_goal s Hs h3. Qed.

Lemma kept_Handle_move_ctor (s : state B) (this other h3 : addr) :
  sound s -> h3 <> this -> h3 <> other ->
  after (kept s h3) (V3.Handle_move_ctor P B Size this other s).
Proof. intros Hs Hne Hne'. explore s; try done; kept_goal s Hs h3. Qed.

Lemma kept_Handle_dtor (s : state B) (this h3 : addr) :
  sound s -> h3 <> this ->
  after (kept s h3) (V3.Handle_dtor P B Size this s).
Proof. intros Hs Hne. explore s; try done; kept_goal s Hs h3. Qed.

Lemma kept_Handle_move_assign (s : state B) (this other h3 : addr) :
  sound s -> h3 <> this -> h3 <> other ->
  after (kept s h3) (V3.Handle_move_assign P B Size this other s).
Proof. intros Hs Hne Hne'. explore s; try done; kept_goal s Hs h3. Qed.

Lemma kept_mutate (s : state B) (h h3 : addr) f :
  sound s -> h3 <> h ->
  after (kept s h3) (V3.mutate P B Size h f s).
Proof. intros Hs Hne. explore s; try done; kept_goal s Hs h3. Qed.

Lemma kept_trans (s s1 s2 : state B) (h3 : addr) :
  kept s h3 s1 -> kept s1 h3 s2 -> kept s h3 s2.
Proof. unfold kept. intros [-> ->] [-> ->]. done. Qed.

Lemma kept_Handle_copy_assign (s : state B) (this other h3 : addr) :
  sound s -> h3 <> this -> is_Some (objects s !! h3) ->
  after (kept s h3) (V3.Handle_copy_assign P B Size this other s).
Proof.
  intros Hs Hne Hlive. unfold V3.Handle_copy_assign.
  assert (h3 <> fresh (dom (objects s))) as Htmp.
  { intros ->. rewrite fresh_addr_unused in Hlive. by destruct Hlive. }
  apply after_bind. simpl. apply after_bind.
  pose proof (kept_Handle_copy_ctor s _ other h3 Hs Htmp) as K1.
  pose proof (sound_Handle_copy_ctor s (fresh (dom (objects s))) other Hs) as S1.
  destruct (V3.Handle_copy_ctor _ _ _ _ _ _) as [[] s1|e s1| | |]; try done.
  simpl in K1, S1. apply after_bind.
  pose proof (kept_Handle_move_assign s1 this _ h3 S1 Hne Htmp) as K2.
  pose proof (sound_Handle_move_assign s1 this (fresh (dom (objects s))) S1) as S2.
  destruct (V3.Handle_move_assign _ _ _ _ _ _) as [[] s2|e s2| | |];
    simpl in *; try done; [|by eapply kept_trans].
  pose proof (kept_Handle_dtor s2 _ h3 S2 Htmp) as K3.
  destruct (V3.Handle_dtor _ _ _ _ _) as [[] s3|e s3| | |]; simpl in *; try done;
    eauto using kept_trans.
Qed.

Lemma uniform_mutate (s : state B) (h : addr) f :
  Contract.uniform P B Size s -> after (Contract.uniform P B Size) (V3.mutate P B Size h f s).
Proof.
  intros Hu. explore s; try done; unfold Contract.uniform in *; simpl.
  intros h' v Hv. destruct_lookups; [simpl; congruence|by eapply Hu].
Qed.

Lemma accounted_mutate (s : state B) (h : addr) f :
  accounted s -> after accounted (V3.mutate P B Size h f s).
Proof.
  intros Ha. explore s; done.
Qed.

(** X1. Sound ownership is kept by every member function and by a change
    of the body through [operator->], in either representation and
    however the call ends: if, before, every pointer held by a handle
    leads to a live body and no two handles hold the same pointer, then so
    it is afterwards.  No call leaves a dangling pointer or a body with
    two owners. *)
Theorem ownership_preserved
    (s : state B) (this other : addr) (f : Body B -> Body B) :
  sound s ->
  after sound (V3.Handle_ctor P B Size this s)
  /\ after sound (V3.Handle_copy_ctor P B Size this other s)
  /\ after sound (V3.Handle_move_ctor P B Size this other s)
  /\ after sound (V3.Handle_dtor P B Size this s)
  /\ after sound (V3.Handle_copy_assign P B Size this other s)
  /\ after sound (V3.Handle_move_assign P B Size this other s)
  /\ after sound (V3.mutate P B Size this f s).
Proof.
  intros Hs. repeat split.
  - by apply sound_Handle_ctor.
  - by apply sound_Handle_copy_ctor.
  - by apply sound_Handle_move_ctor.
  - by apply sound_Handle_dtor.
  - by apply sound_Handle_copy_assign.
  - by apply sound_Handle_move_assign.
  - by apply sound_mutate.
Qed.

(** X2. No member function leaks: if every live body of the free store is
    owned by a handle, then so it is after a destruction, an assignment
    or a change of a body, and after a construction at an address that
    held no live handle, however the call ends. *)
Theorem no_leak_preserved
    (s : state B) (this other : addr) (f : Body B -> Body B) :
  tight s ->
  (objects s !! this = None ->
   after tight (V3.Handle_ctor P B Size this s)
   /\ after tight (V3.Handle_copy_ctor P B Size this other s)
   /\ after tight (V3.Handle_move_ctor P B Size this other s))
  /\ after tight (V3.Handle_dtor P B Size this s)
  /\ after tight (V3.Handle_copy_assign P B Size this other s)
  /\ after tight (V3.Handle_move_assign P B Size this other s)
  /\ after tight (V3.mutate P B Size this f s).
Proof.
  intros Ht. repeat split.
  - by apply tight_Handle_ctor.
  - by apply tight_Handle_copy_ctor.
  - by apply tight_Handle_move_ctor.
  - by apply tight_Handle_dtor.
  - by apply tight_Handle_copy_assign.
  - by apply tight_Handle_move_assign.
  - by apply tight_mutate.
Qed.

(** X3. Frame: in a store with sound ownership, a call on [this] leaves
    the buffer and the value of every other handle [h3] as they were,
    however it ends.  The source of a copy is such a handle; the source
    of a move is not, and has to differ from [h3] as well.  For the copy
    assignment [h3] is a live handle (its address is not the one of the
    temporary). *)
Theorem bystanders_kept
    (s : state B) (this other h3 : addr) (f : Body B -> Body B) :
  sound s -> h3 <> this ->
  after (kept s h3) (V3.Handle_ctor P B Size this s)
  /\ after (kept s h3) (V3.Handle_copy_ctor P B Size this other s)
  /\ after (kept s h3) (V3.Handle_dtor P B Size this s)
  /\ after (kept s h3) (V3.mutate P B Size this f s)
  /\ (is_Some (objects s !! h3) ->
      after (kept s h3) (V3.Handle_copy_assign P B Size this other s))
  /\ (h3 <> other ->
      after (kept s h3) (V3.Handle_move_ctor P B Size this other s)
      /\ after (kept s h3) (V3.Handle_move_assign P B Size this other s)).
Proof.
  intros Hs Hne. repeat split.
  - by apply kept_Handle_ctor.
  - by apply kept_Handle_copy_ctor.
  - by apply kept_Handle_dtor.
  - by apply kept_mutate.
  - intros. by apply kept_Handle_copy_assign.
  - by apply kept_Handle_move_ctor.
  - by apply kept_Handle_move_assign.
Qed.

(** The outstanding allocations, trace after trace. *)
Lemma outstanding_app (t u : list event) (live : gset loc) :
  outstanding (t ++ u) live = outstanding t live ≫= outstanding u.
Proof.
  revert live. induction t as [|e t IH]; intros live; simpl; [done|].
  destruct e; try case_decide; try done; apply IH.
Qed.

Ltac paired_goal Hp :=
  unfold paired in *; simpl;
  rewrite ?outstanding_app, ?Hp; simpl;
  repeat match goal with
         | H : heap _ !! _ = None |- _ => apply not_elem_of_dom in H
         | H : heap _ !! _ = Some _ |- _ => apply elem_of_dom_2 in H
         end;
  repeat case_decide;
  lazymatch goal with
  | |- None = Some _ => exfalso; set_unfold; tauto
  | |- Some _ = Some _ =>
      f_equal; rewrite ?dom_insert_L, ?dom_delete_L;
      first [ done | set_unfold; intros ?; intuition (subst; tauto) ]
  | |- _ => done
  end.

Lemma paired_Handle_ctor (s : state B) (this : addr) :
  paired s -> after paired (V3.Handle_ctor P B Size this s).
Proof. intros Hp. explore s; try done; paired_goal Hp. Qed.

Lemma paired_Handle_copy_ctor (s : state B) (this other : addr) :
  paired s -> after paired (V3.Handle_copy_ctor P B Size this other s).
Proof. intros Hp. explore s; try done; paired_goal Hp. Qed.

Lemma paired_Handle_move_ctor (s : state B) (this other : addr) :
  paired s -> after paired (V3.Handle_move_ctor P B Size this other s).
Proof. intros Hp. explore s; try done; paired_goal Hp. Qed.

Lemma paired_Handle_dtor (s : state B) (this : addr) :
  paired s -> after paired (V3.Handle_dtor P B Size this s).
Proof. intros Hp. explore s; try done; paired_goal Hp. Qed.

Lemma paired_Handle_move_assign (s : state B) (this other : addr) :
  paired s -> after paired (V3.Handle_move_assign P B Size this other s).
Proof. intros Hp. explore s; try done; paired_goal Hp. Qed.

Lemma paired_mutate (s : state B) (h : addr) f :
  paired s -> after paired (V3.mutate P B Size h f s).
Proof. intros Hp. explore s; try done; paired_goal Hp. Qed.

Lemma paired_Handle_copy_assign (s : state B) (this other : addr) :
  paired s -> after paired (V3.Handle_copy_assign P B Size this other s).
Proof.
  revert s. change (preserves paired (V3.Handle_copy_assign P B Size this other)).
  unfold V3.Handle_copy_assign.
  apply preserves_bind; [apply preserves_query, query_alloca|intros tmp].
  apply preserves_bind; [intros s; apply paired_Handle_copy_ctor|intros _].
  apply preserves_bind; [intros s; apply paired_Handle_move_assign|intros _].
  intros s; apply paired_Handle_dtor.
Qed.

Lemma after_consistent {A} (o : outcome B A) :
  after (Contract.uniform P B Size) o -> after sound o ->
  after tight o -> after accounted o -> after paired o ->
  after (consistent P B Size) o.
Proof. unfold consistent. destruct o; simpl; tauto. Qed.

Lemma consistent_perform (c : call B) (s : state B) :
  consistent P B Size s -> after (consistent P B Size) (perform P B Size c s).
Proof.
  intros (Hu & Hs & Ht & Ha & Hp).
  destruct c as [h|h o|h o|h|h o|h o|h f]; simpl; unfold at_unused;
    try (destruct (objects s !! h) eqn:Hh; [done|]);
    apply after_consistent.
  - by apply uniform_Handle_ctor.
  - by apply sound_Handle_ctor.
  - by apply tight_Handle_ctor.
  - by apply accounted_Handle_ctor.
  - by apply paired_Handle_ctor.
  - by apply uniform_Handle_copy_ctor.
  - by apply sound_Handle_copy_ctor.
  - by apply tight_Handle_copy_ctor.
  - by apply accounted_Handle_copy_ctor.
  - by apply paired_Handle_copy_ctor.
  - by apply uniform_Handle_move_ctor.
  - by apply sound_Handle_move_ctor.
  - by apply tight_Handle_move_ctor.
  - by apply accounted_Handle_move_ctor.
  - by apply paired_Handle_move_ctor.
  - by apply uniform_Handle_dtor.
  - by apply sound_Handle_dtor.
  - by apply tight_Handle_dtor.
  - by apply accounted_Handle_dtor.
  - by apply paired_Handle_dtor.
  - by apply uniform_Handle_copy_assign.
  - by apply sound_Handle_copy_assign.
  - by apply tight_Handle_copy_assign.
  - by apply accounted_Handle_copy_assign.
  - by apply paired_Handle_copy_assign.
  - by apply uniform_Handle_move_assign.
  - by apply sound_Handle_move_assign.
  - by apply tight_Handle_move_assign.
  - by apply accounted_Handle_move_assign.
  - by apply paired_Handle_move_assign.
  - by apply uniform_mutate.
  - by apply sound_mutate.
  - by apply tight_mutate.
  - by apply accounted_mutate.
  - by apply paired_mutate.
Qed.

Lemma consistent_run (cs : list (call B)) :
  forall s, consistent P B Size s ->
            after (consistent P B Size) (run P B Size cs s).
Proof.
  induction cs as [|c cs IH]; intros s Hs; simpl; [done|].
  apply after_bind. pose proof (consistent_perform c s Hs) as Hc.
  destruct (perform P B Size c s) as [[] s1|e s1| | |]; simpl in *; try done.
  by apply IH.
Qed.

Lemma consistent_exit (s : state B) :
  consistent P B Size s -> objects s = ∅ ->
  heap s = ∅
  /\ outstanding (trace s) ∅ = Some ∅
  /\ allocations (trace s) = deallocations (trace s).
Proof.
  intros (_ & _ & Ht & Ha & Hp) Hobjs.
  assert (heap s = ∅) as Hheap.
  { apply map_empty. intros l. destruct (heap s !! l) eqn:Hl; [|done].
    destruct (Ht l) as [h Hh]; [by eexists|].
    unfold owns in Hh. by rewrite Hobjs, lookup_empty in Hh. }
  split; [done|]. split.
  - unfold paired in Hp. by rewrite Hp, Hheap, dom_empty_L.
  - unfold accounted in Ha. rewrite Ha, Hheap, map_size_empty. lia.
Qed.

(** X4. Whole programs.  From a consistent store (one representation,
    sound ownership, no leaked body, a trace that accounts for the free
    store), any sequence of definitions, destructions, assignments and
    changes of bodies, with new handles defined at unused addresses,
    leaves a consistent store, whether it runs to its end or stops at an
    exception.  If no handle is live then, the free store is empty; every
    deallocation of the trace gave back a location that an earlier
    allocation had taken and that was still outstanding, no allocation is
    left outstanding, and there were as many deallocations as
    allocations. *)
Theorem no_leak_at_exit (cs : list (call B)) (s : state B) :
  consistent P B Size s ->
  after (fun s1 =>
           consistent P B Size s1
           /\ (objects s1 = ∅ ->
               heap s1 = ∅
               /\ outstanding (trace s1) ∅ = Some ∅
               /\ allocations (trace s1) = deallocations (trace s1)))
        (run P B Size cs s).
Proof.
  intros Hs. pose proof (consistent_run cs s Hs) as Hrun.
  destruct (run P B Size cs s) as [[] s1|e s1| | |]; simpl in *; try done;
    (split; [done|]; by apply consistent_exit).
Qed.

(** X5. Default construction is all or nothing.  With the indirect
    representation and no memory it throws [std::bad_alloc] and nothing
    changes.  Otherwise, when [Body()] throws, the exception propagates
    and no handle and no body has changed; when [Body()] gives [b], the
    call returns and the new handle is valid and holds [b], which [*this]
    reads when the body is held in place. *)
Theorem default_construction (s : state B) (this : addr) :
  (V3.fits P (Body_layout B) Size = false ->
   out_of_memory P (trace s) = true ->
   V3.Handle_ctor P B Size this s = Throws bad_alloc s)
  /\ (V3.fits P (Body_layout B) Size = true
      \/ out_of_memory P (trace s) = false ->
      match Body_default B with
      | None =>
          exists s1, V3.Handle_ctor P B Size this s = Throws body_exception s1
                     /\ objects s1 = objects s /\ heap s1 = heap s
      | Some b =>
          exists s1, V3.Handle_ctor P B Size this s = Returns tt s1
                     /\ value s1 this = Some b
                     /\ V3.valid P B Size s1 this
                     /\ (V3.fits P (Body_layout B) Size = true ->
                         V3.read P B Size this s1 = Returns b s1)
      end).
Proof.
  pose proof (fresh_loc_unused B s) as Hnew. split.
  - intros Hfits Hoom. by exec.
  - intros Hcan.
    destruct (V3.fits P (Body_layout B) Size) eqn:Hfits;
      [|destruct Hcan as [|Hoom]; [done|]];
      destruct (Body_default B) as [b|] eqn:Hb;
      eexists; (split; [by exec|]); simpl.
    + unfold value, V3.valid. rewrite Hfits. simpl.
      rewrite lookup_insert_eq. split; [done|]. split; [eauto|].
      intros _. by exec.
    + done.
    + unfold value, V3.valid. rewrite Hfits. simpl.
      rewrite !lookup_insert_eq. split; [done|]. split; [|done].
      do 2 eexists. split; [done|]. apply lookup_insert_eq.
    + done.
Qed.

(** X6. Move assignment between two different live handles that do not
    share a body, the source being valid and holding [b] (and the body's
    move assignment giving the target the source's value, when bodies are
    held in place): the call returns, the target is valid and holds [b],
    and the source is left moved-from, null if indirect and holding what
    the body's move assignment left if inline; it is still live. *)
Theorem move_assign_transfers (s : state B) (this other : addr) (b : Body B) :
  V3.valid P B Size s other ->
  value s other = Some b ->
  Contract.live P B Size s this ->
  this <> other ->
  unshared s this other ->
  (V3.fits P (Body_layout B) Size = true -> move_assign_yields_source B) ->
  exists s1,
    V3.Handle_move_assign P B Size this other s = Returns tt s1
    /\ value s1 this = Some b
    /\ V3.valid P B Size s1 this
    /\ (if V3.fits P (Body_layout B) Size
        then exists d, objects s !! this = Some (InPlace d)
                       /\ objects s1 !! other
                          = Some (InPlace (Body_move_assign B d b).2)
        else V3.null_handle s1 other)
    /\ Contract.live P B Size s1 other.
Proof.
  intros Hvalid Hvalue Hlive Hne Hsh Hlaw.
  pose proof (valid_inv P B Size s other b Hvalid Hvalue) as Hread.
  clear Hvalid Hvalue. apply live_inv in Hlive.
  unfold Contract.live, V3.valid, V3.null_handle, unshared, value in *.
  destruct (V3.fits P (Body_layout B) Size) eqn:Hfits.
  - destruct Hlive as [d Hd]. specialize (Hlaw eq_refl d b).
    eexists. split; [by exec|]. simpl.
    split; [exec; by rewrite Hlaw|]. split; [exec; eauto|].
    split.
    + exists d. split; [done|]. by rewrite lookup_insert_eq.
    + left. rewrite lookup_insert_eq. eauto.
  - destruct Hread as (lo & Ho & Hlo).
    destruct Hlive as [Ht|(lt & d & Ht & Hlt)].
    + eexists. split; [by exec|]. simpl. split; [by exec|].
      split; [exec; eauto|].
      split; [|right; split; [done|]]; by exec.
    + assert (lt <> lo) by (intros ->; eauto).
      eexists. split; [by exec|]. simpl. split; [by exec|].
      split; [exec; do 2 eexists; split; [done|]; by exec|].
      split; [|right; split; [done|]]; by exec.
Qed.

(** X7. A copy that is destroyed leaves the store as it was.  Let [h]
    hold [b], [h2] be an unused address, and [Body_copy b] return.  With
    the inline representation of HandleImpl.v3.h, constructing [h2] as a
    copy of [h] and destroying it returns with the handles and the free
    store exactly as before, and the trace records one copy and one
    destruction.  With the handle of HandleImpl.v2.h, when [h] owns a live
    body and memory is available, the same holds, and the trace records
    the copy and the destruction between one allocation and the
    deallocation of the same location. *)
Theorem copy_then_destroy
    (s : state B) (h2 h : addr) (l : loc) (b b' : Body B) :
  objects s !! h2 = None ->
  Body_copy B b = Some b' ->
  (V3.fits P (Body_layout B) Size = true ->
   objects s !! h = Some (InPlace b) ->
   (V3.Handle_copy_ctor P B Size h2 h ;; V3.Handle_dtor P B Size h2) s
   = Returns tt (State (objects s) (heap s) (trace s ++ [EvCopy; EvDestroy])))
  /\ (objects s !! h = Some (Owner (Some l)) ->
      heap s !! l = Some b ->
      out_of_memory P (trace s) = false ->
      (V2.Handle_copy_ctor P B h2 h ;; V2.Handle_dtor B h2) s
      = Returns tt
          (State (objects s) (heap s)
                 (trace s ++ [EvNew (fresh (dom (heap s))); EvCopy; EvDestroy;
                              EvDelete (fresh (dom (heap s)))]))).
Proof.
  intros Hh2 Hcopy. pose proof (fresh_loc_unused B s) as Hnew. split.
  - intros Hfits Hh. assert (h2 <> h) as Hne by congruence.
    exec. by rewrite delete_insert_id.
  - intros Hh Hl Hmem. assert (h2 <> h) as Hne by congruence.
    exec. rewrite !insert_insert_eq, !delete_insert_id by done. done.
Qed.

(** X8. With the indirect representation, moving a handle away and back
    is free: for a handle [h] that holds any pointer, null or not, and an
    unused address [h2], move-constructing [h2] from [h], move-assigning
    it back and destroying [h2] returns in exactly the state it started
    from, trace included: nothing is allocated, copied, destroyed or
    deallocated. *)
Theorem move_there_and_back (s : state B) (h2 h : addr) (p : option loc) :
  V3.fits P (Body_layout B) Size = false ->
  objects s !! h = Some (Owner p) ->
  objects s !! h2 = None ->
  (V3.Handle_move_ctor P B Size h2 h ;;
   V3.Handle_move_assign P B Size h h2 ;;
   V3.Handle_dtor P B Size h2) s
  = Returns tt s.
Proof.
  intros Hfits Hh Hh2. assert (h2 <> h) as Hne by congruence.
  destruct s as [objs hp tr]; simpl in *. exec.
  rewrite delete_insert_eq, delete_insert_ne by done.
  rewrite !delete_insert_eq, delete_insert_ne by done.
  by rewrite delete_id, insert_insert_eq, insert_id.
Qed.

(** X9. The [noexcept] member functions keep their word on live handles:
    move construction from a live handle, destruction of a live handle
    and move assignment between live handles return; they do not throw,
    fail an assertion or run into undefined behaviour.  The source of a
    move is live afterwards, and a destroyed handle is gone. *)
Theorem noexcept_returns (s : state B) (this other h2 : addr) :
  Contract.live P B Size s this ->
  Contract.live P B Size s other ->
  (exists s1, V3.Handle_move_ctor P B Size h2 other s = Returns tt s1
              /\ (h2 <> other -> Contract.live P B Size s1 other))
  /\ (exists s1, V3.Handle_dtor P B Size this s = Returns tt s1
                 /\ objects s1 !! this = None)
  /\ (exists s1, V3.Handle_move_assign P B Size this other s = Returns tt s1
                 /\ Contract.live P B Size s1 other).
Proof.
  intros Hthis Hother. apply live_inv in Hthis, Hother.
  unfold Contract.live, V3.valid, V3.null_handle.
  destruct (V3.fits P (Body_layout B) Size) eqn:Hfits.
  - destruct Hthis as [d Hd], Hother as [b Hb]. repeat split.
    + eexists. split; [by exec|]. simpl. intros Hne. left.
      rewrite lookup_insert_ne, lookup_insert_eq by done. eauto.
    + eexists. split; [by exec|]. simpl. by rewrite lookup_delete_eq.
    + destruct (decide (this = other)) as [->|Hne];
        (eexists; split; [by exec|]); simpl; left;
        rewrite lookup_insert_eq; eauto.
  - repeat split.
    + destruct Hother as [Ho|(lo & b & Ho & Hlo)];
        (eexists; split; [by exec|]); simpl; intros Hne; right;
        (split; [done|]); by rewrite lookup_insert_ne, lookup_insert_eq.
    + destruct Hthis as [Ht|(lt & d & Ht & Hlt)];
        (eexists; split; [by exec|]); simpl; by rewrite lookup_delete_eq.
    + destruct (decide (this = other)) as [->|Hne].
      * destruct Hother as [Ho|(lo & b & Ho & Hlo)];
          (eexists; split; [by exec|]); simpl;
          [right; split; [done|]; by rewrite lookup_insert_eq|].
        left. exists lo, b. by rewrite lookup_insert_eq.
      * destruct Hother as [Ho|(lo & b & Ho & Hlo)],
                 Hthis as [Ht|(lt & d & Ht & Hlt)];
          (eexists; split; [by exec|]); simpl; right; (split; [done|]);
          by rewrite lookup_insert_ne, lookup_insert_eq.
Qed.

(** X10. The copy constructor of HandleImpl.v2.h, which first makes
    [handle_] null and then assigns to it, building a handle at an unused
    address from another handle.  If it throws (no memory, or the body's
    copy constructor threw), the half-built handle is unwound: handles
    and bodies are exactly as before.  If it returns, only [this] was
    added to the handles; it is null exactly when the source is null, and
    otherwise it owns a location that was unused and now holds what the
    body's copy constructor made of the source's body, the free store
    being otherwise unchanged. *)
Theorem V2_copy_ctor_guarantee (s : state B) (this other : addr) :
  objects s !! this = None ->
  this <> other ->
  match V2.Handle_copy_ctor P B this other s with
  | Returns _ s1 =>
      exists p,
        objects s1 = <[this := Owner p]> (objects s)
        /\ (p = None <-> objects s !! other = Some (Owner None))
        /\ match p with
           | None => heap s1 = heap s
           | Some l =>
               heap s !! l = None
               /\ exists b b', value s other = Some b
                               /\ Body_copy B b = Some b'
                               /\ heap s1 = <[l := b']> (heap s)
           end
  | Throws _ s1 => objects s1 = objects s /\ heap s1 = heap s
  | Aborts | Undefined => True
  | Ill_formed => False
  end.
Proof.
  intros Hthis Hne. explore s; try done;
    rewrite ?delete_insert_id by done; try done;
    eexists; (split; [by rewrite ?insert_insert_eq|]); (split; [done|]);
    first [ done | split; [done|]; unfold value; exec; eauto ].
Qed.


End Safety.

(** *** The stores of the examples *)

Ltac concrete_lookups :=
  repeat match goal with
         | H : <[_ := _]> _ !! _ = Some _ |- _ =>
             apply lookup_insert_Some in H as [[? ?]|[? H]]
         | H : {[_ := _]} !! _ = Some _ |- _ =>
             apply lookup_singleton_Some in H as [? ?]
         | H : ∅ !! _ = Some _ |- _ => by rewrite lookup_empty in H
         end;
  simplify_eq.

Lemma sound_large_store : sound large_store.
Proof.
  unfold sound, owns, large_store; simpl. split.
  - intros h l H. concrete_lookups. by eexists.
  - intros h1 h2 l H1 H2. by concrete_lookups.
Qed.

Lemma tight_large_store : tight large_store.
Proof.
  unfold tight, owns, large_store; simpl. intros l [b Hl].
  concrete_lookups. by exists 1%positive.
Qed.

Lemma consistent_empty (P : platform) (B : body_type) (Size : N) :
  consistent P B Size (empty_state B).
Proof.
  unfold consistent, Contract.uniform, sound, tight, owns, accounted, paired;
    simpl.
  repeat split.
  - intros h v H. by rewrite lookup_empty in H.
  - intros h l H. by rewrite lookup_empty in H.
  - intros h1 h2 l H. by rewrite lookup_empty in H.
  - intros l [b H]. by rewrite lookup_empty in H.
Qed.

Lemma sound_small_store : sound small_store.
Proof.
  unfold sound, owns, small_store; simpl. split.
  - intros h l H. by concrete_lookups.
  - intros h1 h2 l H1 H2. by concrete_lookups.
Qed.

(** *** The theorems at work *)

(** A call whose outcome is computed is a return. *)
Ltac returned o s1 E :=
  destruct o as [[] s1|? s1| | |] eqn:E;
  [|vm_compute in E; discriminate..].

Lemma ownership_preserved_witness :
  exists s1,
    V3.Handle_move_assign lp64 LargeBuffer 32 2 1 large_store = Returns tt s1
    /\ sound s1.
Proof.
  destruct (ownership_preserved lp64 LargeBuffer 32 large_store 2 1 id
              sound_large_store) as (_ & _ & _ & _ & _ & H & _).
  returned (V3.Handle_move_assign lp64 LargeBuffer 32 2 1 large_store) s1 E.
  by exists s1.
Defined.

Lemma no_leak_preserved_witness :
  (exists s1,
     V3.Handle_ctor lp64 LargeBuffer 32 3 large_store = Returns tt s1
     /\ tight s1)
  /\ (exists s1,
        V3.Handle_dtor lp64 LargeBuffer 32 1 large_store = Returns tt s1
        /\ tight s1).
Proof.
  destruct (no_leak_preserved lp64 LargeBuffer 32 large_store 3 1 id
              tight_large_store) as (H & _).
  destruct (H eq_refl) as (Hc & _).
  destruct (no_leak_preserved lp64 LargeBuffer 32 large_store 1 1 id
              tight_large_store) as (_ & Hd & _).
  split.
  - returned (V3.Handle_ctor lp64 LargeBuffer 32 3 large_store) s1 E.
    by exists s1.
  - returned (V3.Handle_dtor lp64 LargeBuffer 32 1 large_store) s1 E.
    by exists s1.
Defined.

Lemma bystanders_kept_witness :
  (exists s1,
     V3.Handle_dtor lp64 LargeBuffer 32 2 large_store = Returns tt s1
     /\ value s1 1 = Some 7%Z)
  /\ (exists s1,
        V3.Handle_copy_assign lp64 SmallCounter 32 2 2 small_store
        = Returns tt s1
        /\ value s1 1 = Some 7%Z).
Proof.
  split.
  - destruct (bystanders_kept lp64 LargeBuffer 32 large_store 2 2 1 id
                sound_large_store) as (_ & _ & H & _); [discriminate|].
    returned (V3.Handle_dtor lp64 LargeBuffer 32 2 large_store) s1 E.
    exists s1. split; [done|]. by rewrite (proj2 H).
  - destruct (bystanders_kept lp64 SmallCounter 32 small_store 2 2 1 id
                sound_small_store) as (_ & _ & _ & _ & H & _); [discriminate|].
    specialize (H ltac:(by eexists)).
    returned (V3.Handle_copy_assign lp64 SmallCounter 32 2 2 small_store) s1 E.
    exists s1. split; [done|]. by rewrite (proj2 H).
Defined.

(** A program on [Handle<LargeBuffer, 32>], which can be built, moved and
    destroyed, and one on [Handle<SmallCounter, 32>], which can also be
    copied and gone through. *)
Lemma no_leak_at_exit_witness :
  (exists s1,
     run lp64 LargeBuffer 32
       [Construct 1; MoveConstruct 2 1; Construct 3; MoveAssign 3 2;
        Destroy 1; Destroy 2; Destroy 3]
       (empty_state LargeBuffer)
     = Returns tt s1
     /\ objects s1 = ∅ /\ heap s1 = ∅
     /\ outstanding (trace s1) ∅ = Some ∅
     /\ allocations (trace s1) = 2 /\ deallocations (trace s1) = 2)
  /\ (exists s1,
        run lp64 SmallCounter 32
          [Construct 1; CopyConstruct 2 1; @Mutate SmallCounter 2 Z.succ;
           CopyAssign 1 2; Destroy 1; Destroy 2]
          (empty_state SmallCounter)
        = Returns tt s1
        /\ objects s1 = ∅ /\ heap s1 = ∅
        /\ allocations (trace s1) = 0).
Proof.
  split.
  - pose proof (no_leak_at_exit lp64 LargeBuffer 32
                  [Construct 1; MoveConstruct 2 1; Construct 3; MoveAssign 3 2;
                   Destroy 1; Destroy 2; Destroy 3]
                  (empty_state LargeBuffer) (consistent_empty _ _ _)) as H.
    destruct (run _ _ _ _ _) as [[] s1|? s1| | |] eqn:E;
      [|vm_compute in E; discriminate..].
    vm_compute in E. injection E as <-.
    destruct H as [_ H]. destruct (H eq_refl) as (Hheap & Hpairs & Hcount).
    eexists. split; [reflexivity|]. split; [reflexivity|].
    split; [exact Hheap|]. split; [exact Hpairs|].
    split; [reflexivity|]. by rewrite <- Hcount.
  - pose proof (no_leak_at_exit lp64 SmallCounter 32
                  [Construct 1; CopyConstruct 2 1;
                   @Mutate SmallCounter 2 Z.succ;
                   CopyAssign 1 2; Destroy 1; Destroy 2]
                  (empty_state SmallCounter) (consistent_empty _ _ _)) as H.
    destruct (run _ _ _ _ _) as [[] s1|? s1| | |] eqn:E;
      [|vm_compute in E; discriminate..].
    vm_compute in E. injection E as <-.
    destruct H as [_ H]. destruct (H eq_refl) as (Hheap & _ & _).
    eexists. split; [reflexivity|]. split; [reflexivity|].
    split; [exact Hheap|]. reflexivity.
Defined.

Lemma move_assign_transfers_witness :
  (exists s1,
     V3.Handle_move_assign lp64 LargeBuffer 32 2 1 large_store = Returns tt s1
     /\ value s1 2 = Some 7%Z
     /\ V3.null_handle s1 1)
  /\ (exists s1,
        V3.Handle_move_assign lp64 SmallCounter 32 2 1 small_store
        = Returns tt s1
        /\ value s1 2 = Some 7%Z).
Proof.
  split.
  - destruct (move_assign_transfers lp64 LargeBuffer 32 large_store 2 1 7%Z)
      as (s1 & H1 & H2 & _ & H3 & _).
    + exists 1%positive, 7%Z. split; reflexivity.
    + reflexivity.
    + right. split; reflexivity.
    + discriminate.
    + intros l _ Ha Hb. vm_compute in Ha, Hb. congruence.
    + discriminate.
    + exists s1. split; [exact H1|]. split; [exact H2|]. exact H3.
  - destruct (move_assign_transfers lp64 SmallCounter 32 small_store 2 1 7%Z)
      as (s1 & H1 & H2 & _).
    + exists 7%Z. reflexivity.
    + reflexivity.
    + left. exists 0%Z. reflexivity.
    + discriminate.
    + intros l _ Ha Hb. vm_compute in Ha, Hb. congruence.
    + intros _ d r. reflexivity.
    + exists s1. split; [exact H1|exact H2].
Defined.

Lemma copy_then_destroy_witness :
  (V3.Handle_copy_ctor lp64 SmallCounter 32 3 1 ;;
   V3.Handle_dtor lp64 SmallCounter 32 3) small_store
  = Returns tt
      (State (objects small_store) (heap small_store) [EvCopy; EvDestroy])
  /\ (V2.Handle_copy_ctor lp64 LargeBuffer 3 1 ;;
      V2.Handle_dtor LargeBuffer 3) large_store
     = Returns tt
         (State (objects large_store) (heap large_store)
                [EvNew 2; EvCopy; EvDestroy; EvDelete 2]).
Proof.
  split.
  - destruct (copy_then_destroy lp64 SmallCounter 32 small_store 3 1
                1%positive 7%Z 7%Z eq_refl eq_refl) as [H _].
    exact (H eq_refl eq_refl).
  - destruct (copy_then_destroy lp64 LargeBuffer 32 large_store 3 1
                1%positive 7%Z 7%Z eq_refl eq_refl) as [_ H].
    exact (H eq_refl eq_refl eq_refl).
Defined.

Lemma move_there_and_back_witness :
  (V3.Handle_move_ctor lp64 LargeBuffer 32 3 1 ;;
   V3.Handle_move_assign lp64 LargeBuffer 32 1 3 ;;
   V3.Handle_dtor lp64 LargeBuffer 32 3) large_store
  = Returns tt large_store.
Proof.
  apply (move_there_and_back lp64 LargeBuffer 32 large_store 3 1
           (Some 1%positive)); reflexivity.
Defined.

Lemma noexcept_returns_witness :
  (exists s1,
     V3.Handle_move_ctor lp64 LargeBuffer 32 3 2 large_store = Returns tt s1)
  /\ (exists s1,
        V3.Handle_dtor lp64 LargeBuffer 32 1 large_store = Returns tt s1
        /\ objects s1 !! 1%positive = None)
  /\ (exists s1,
        V3.Handle_move_assign lp64 LargeBuffer 32 1 2 large_store
        = Returns tt s1).
Proof.
  destruct (noexcept_returns lp64 LargeBuffer 32 large_store 1 2 3)
    as ((s1 & H1 & _) & (s2 & H2) & (s3 & H3 & _)).
  - left. exists 1%positive, 7%Z. split; reflexivity.
  - right. split; reflexivity.
  - split; [by exists s1|]. split; [by exists s2|]. by exists s3.
Defined.

Lemma V2_copy_ctor_guarantee_witness :
  (exists s1,
     V2.Handle_copy_ctor lp64 Fragile 3 1 fragile_store
     = Throws body_exception s1
     /\ objects s1 = objects fragile_store
     /\ heap s1 = heap fragile_store)
  /\ (exists s1,
        V2.Handle_copy_ctor lp64 Fragile 3 2 fragile_store = Returns tt s1
        /\ objects s1
           = <[3%positive := Owner (Some 3%positive)]> (objects fragile_store)).
Proof.
  split.
  - pose proof (V2_copy_ctor_guarantee lp64 Fragile fragile_store 3 1
                  eq_refl ltac:(discriminate)) as H.
    destruct (V2.Handle_copy_ctor lp64 Fragile 3 1 fragile_store)
      as [[] s1|e s1| | |] eqn:E;
      [vm_compute in E; discriminate| |vm_compute in E; discriminate..].
    exists s1. split; [|exact H].
    vm_compute in E. injection E as <- <-. reflexivity.
  - pose proof (V2_copy_ctor_guarantee lp64 Fragile fragile_store 3 2
                  eq_refl ltac:(discriminate)) as H.
    returned (V2.Handle_copy_ctor lp64 Fragile 3 2 fragile_store) s1 E.
    destruct H as (p & Hobjs & _ & Hp). exists s1. split; [done|].
    vm_compute in E. injection E as <-. reflexivity.
Defined.

End HandleSafety.

(** * The survival protocol on the edge of its contract *)

Module SurvivalEdges.
Import Survival SurvivalClasses.

(** Order and equality of binary64 numbers, read off their
    specification. *)
Lemma Prim2SF_nan x : PrimFloat.is_nan x = true -> Prim2SF x = S754_nan.
Proof. intros H. unfold Prim2SF. by rewrite H. Qed.

Lemma Prim2SF_zero : Prim2SF 0 = S754_zero false.
Proof. reflexivity. Qed.

Lemma leb_nan_l x y : PrimFloat.is_nan x = true -> PrimFloat.leb x y = false.
Proof. intros H. by rewrite FloatAxioms.leb_spec, (Prim2SF_nan x H). Qed.

Lemma leb_nan_r x y : PrimFloat.is_nan y = true -> PrimFloat.leb x y = false.
Proof.
  intros H. rewrite FloatAxioms.leb_spec, (Prim2SF_nan y H). by destruct (Prim2SF x).
Qed.

Lemma eqb_nan_l x y : PrimFloat.is_nan x = true -> PrimFloat.eqb x y = false.
Proof. intros H. by rewrite FloatAxioms.eqb_spec, (Prim2SF_nan x H). Qed.

Lemma leb_0_trans t T :
  PrimFloat.leb 0 t = true -> PrimFloat.leb t T = true ->
  PrimFloat.leb 0 T = true.
Proof.
  rewrite !FloatAxioms.leb_spec, Prim2SF_zero.
  destruct (Prim2SF t) as [[]|[]| |[] m e], (Prim2SF T) as [[]|[]| |[] m' e'];
    by cbn.
Qed.

Lemma leb_0_negative x :
  PrimFloat.ltb x 0 = true -> PrimFloat.leb 0 x = false.
Proof.
  rewrite FloatAxioms.ltb_spec, FloatAxioms.leb_spec, Prim2SF_zero.
  destruct (Prim2SF x) as [[]|[]| |[] m e]; by cbn.
Qed.

Lemma leb_above_negative t T :
  PrimFloat.leb 0 t = true -> PrimFloat.ltb T 0 = true ->
  PrimFloat.leb t T = false.
Proof.
  rewrite FloatAxioms.ltb_spec, !FloatAxioms.leb_spec, Prim2SF_zero.
  destruct (Prim2SF t) as [[]|[]| |[] m e], (Prim2SF T) as [[]|[]| |[] m' e'];
    by cbn.
Qed.

Lemma eqb_0_zero x :
  PrimFloat.eqb x 0 = true <-> exists s, Prim2SF x = S754_zero s.
Proof.
  rewrite FloatAxioms.eqb_spec, Prim2SF_zero.
  destruct (Prim2SF x) as [s|[]| |[] m e]; cbn; split; try done.
  - eauto.
  - by intros [? ?].
  - by intros [? ?].
  - by intros [? ?].
  - by intros [? ?].
  - by intros [? ?].
Qed.

Lemma div_nan y x : PrimFloat.is_nan x = true -> PrimFloat.is_nan (y / x) = true.
Proof.
  intros H. unfold PrimFloat.is_nan at 1.
  rewrite FloatAxioms.eqb_spec, FloatAxioms.div_spec, (Prim2SF_nan x H).
  unfold SF64div, SFdiv. by destruct (Prim2SF y).
Qed.

(** X11. Under the precondition [0 <= t <= T] the assertions are
    transparent.  For a class that opts into the default implementation,
    the public [conditional_survival_prob(T, t)] gives, in a debug build
    as in a release build, what the quotient is computed from: the
    exception or the value of [survival_prob_impl(t)], an exception if
    that value is zero, and otherwise the exception of
    [survival_prob_impl(T)] or the quotient of the two values.  None of
    the four assertions on the way fires, the one on [T >= 0] included. *)
Theorem assertions_transparent
    (NDEBUG : bool) (self : Survival) (T t : Time) :
  (forall T t, conditional_survival_prob_impl self T t
               = Survival_conditional_survival_prob_impl NDEBUG self T t) ->
  PrimFloat.leb 0 t = true ->
  PrimFloat.leb t T = true ->
  conditional_survival_prob NDEBUG self T t = quotient_of self T t
  /\ Survival_conditional_survival_prob_impl false self T t
     = Survival_conditional_survival_prob_impl true self T t.
Proof.
  intros Hopt Ht HtT. pose proof (leb_0_trans t T Ht HtT) as HT.
  unfold conditional_survival_prob. rewrite Hopt.
  unfold Survival_conditional_survival_prob_impl, survival_prob, assert,
    quotient_of.
  rewrite Ht, HtT, HT, !orb_true_r. simpl. done.
Qed.

(** X12. In a debug build a time that is not a number or is negative
    never reaches the implementation: [survival_prob] and [hazard_rate]
    fail their assertion on such a [T], and both the public
    [conditional_survival_prob] and the default implementation fail one
    as soon as [T] or [t] is such a time, whatever the class. *)
Theorem bad_times_rejected (self : Survival) (T t : Time) :
  (bad_time T ->
   survival_prob false self T = assertion_failed
   /\ hazard_rate false self T = assertion_failed)
  /\ (bad_time T \/ bad_time t ->
      conditional_survival_prob false self T t = assertion_failed
      /\ Survival_conditional_survival_prob_impl false self T t
         = assertion_failed).
Proof.
  unfold bad_time, survival_prob, hazard_rate, conditional_survival_prob,
    Survival_conditional_survival_prob_impl, assert. simpl. split.
  - intros [H|H];
      [rewrite (leb_nan_r _ _ H)|rewrite (leb_0_negative _ H)]; done.
  - intros [[H|H]|[H|H]].
    + rewrite (leb_nan_r t T H). by destruct (PrimFloat.leb 0 t).
    + destruct (PrimFloat.leb 0 t) eqn:Ht; [|done].
      by rewrite (leb_above_negative t T Ht H).
    + by rewrite (leb_nan_r 0 t H).
    + by rewrite (leb_0_negative t H).
Qed.

(** X13. The denominators the default implementation meets, when its
    assertions pass or are compiled out.  If [survival_prob(t)] returns a
    zero, of either sign, it throws [pdg::computation_error]: it never
    divides by zero.  A value that is not a number is not caught: if
    [survival_prob(t)] returns NaN and [survival_prob(T)] returns a value,
    the call returns, and what it returns is NaN. *)
Theorem denominators
    (NDEBUG : bool) (self : Survival) (T t S_t : Time) :
  NDEBUG || (PrimFloat.leb 0 t && PrimFloat.leb t T) = true ->
  survival_prob NDEBUG self t = Value S_t ->
  ((exists s, Prim2SF S_t = S754_zero s) ->
   Survival_conditional_survival_prob_impl NDEBUG self T t = computation_error)
  /\ (forall s v,
        Prim2SF S_t <> S754_zero s ->
        Survival_conditional_survival_prob_impl NDEBUG self T t = Value v ->
        exists S_T, survival_prob NDEBUG self T = Value S_T
                    /\ v = PrimFloat.div S_T S_t)
  /\ (PrimFloat.is_nan S_t = true ->
      forall S_T,
        survival_prob NDEBUG self T = Value S_T ->
        exists v, Survival_conditional_survival_prob_impl NDEBUG self T t
                  = Value v
                  /\ PrimFloat.is_nan v = true).
Proof.
  intros Hpre HSt. unfold Survival_conditional_survival_prob_impl, assert.
  assert (NDEBUG || PrimFloat.leb 0 t = true
          /\ NDEBUG || PrimFloat.leb t T = true) as [-> ->].
  { destruct NDEBUG; simpl in *; [done|]. by apply andb_true_iff. }
  rewrite HSt. repeat split.
  - intros Hz. apply eqb_0_zero in Hz. by rewrite Hz.
  - intros s v _. destruct (PrimFloat.eqb S_t 0); [done|].
    destruct (survival_prob NDEBUG self T) as [S_T| |]; try done.
    intros [= <-]. eauto.
  - intros Hnan S_T HT. rewrite (eqb_nan_l _ _ Hnan), HT.
    eexists. split; [done|]. by apply div_nan.
Qed.

Lemma assertions_transparent_witness :
  conditional_survival_prob false (hyperbolic false) 3 1 = Value 0.5
  /\ conditional_survival_prob true (hyperbolic true) 3 1 = Value 0.5.
Proof.
  split.
  - rewrite (proj1 (assertions_transparent false (hyperbolic false) 3 1
                      (fun _ _ => eq_refl) eq_refl eq_refl)).
    reflexivity.
  - rewrite (proj1 (assertions_transparent true (hyperbolic true) 3 1
                      (fun _ _ => eq_refl) eq_refl eq_refl)).
    reflexivity.
Defined.

Lemma denominators_witness :
  Survival_conditional_survival_prob_impl false step 2 1 = computation_error
  /\ exists v,
       Survival_conditional_survival_prob_impl false broken 2 1 = Value v
       /\ PrimFloat.is_nan v = true.
Proof.
  split.
  - apply (denominators false step 2 1 0 eq_refl eq_refl).
    by exists false.
  - apply (denominators false broken 2 1 PrimFloat.nan eq_refl eq_refl)
      with (S_T := PrimFloat.nan); reflexivity.
Defined.

End SurvivalEdges.

(** * The adapter and the traits *)

Module AdapterFacts.
Import Mem Adapter.

(** X14. The virtual copy.  For an adapted type whose copy and move leave
    its printed text alone, [clone()] on any object of the protocol either
    returns a non-null pointer to a new object, at a location that was
    unused, of the same class as the original and printing exactly what
    the original prints, nothing being written and no other object being
    touched; or it throws and nothing has changed: [std::bad_alloc] when
    there is no memory, and otherwise the exception of the copy
    constructor of [T], which only an adapter can raise. *)
Theorem clone_same_value
    (A : adapted) (out_of_memory : world A -> bool)
    (this : object A) (w : world A) :
  prints_alike A ->
  match clone A out_of_memory this w with
  | Returns p w1 =>
      exists l o,
        p = Some l
        /\ free_store w !! l = None
        /\ free_store w1 = <[l := o]> (free_store w)
        /\ stdout w1 = stdout w
        /\ same_class A o this
        /\ forall w', print A o w' = print A this w'
  | Throws e w1 =>
      w1 = w
      /\ (e = bad_alloc /\ out_of_memory w = true
          \/ e = T_exception /\ out_of_memory w = false
             /\ exists impl_, this = PrintableValueAdapter impl_
                              /\ T_copy A impl_ = None)
  end.
Proof.
  intros [Hcopy Hmove].
  unfold clone, clone_impl, make_unique, print, print_impl.
  destruct (out_of_memory w) eqn:Hoom; [destruct this; simpl; auto|].
  assert (free_store w !! fresh (dom (free_store w)) = None) as Hfresh
    by apply not_elem_of_dom, is_fresh.
  destruct this as [|impl_]; simpl.
  - do 2 eexists. repeat split; done.
  - destruct (T_copy A impl_) as [c|] eqn:Hc; simpl.
    + do 2 eexists. repeat split; try done.
      intros w'. unfold PrintableValueAdapter_ctor.
      by rewrite Hmove, (Hcopy _ _ Hc).
    + split; [done|]. right. eauto.
Qed.

Lemma clone_same_value_witness :
  (exists l w1,
     clone String (fun _ => false) (@PrintableValueAdapter String "seven")
       (@World String "" ∅)
     = Returns (Some l) w1
     /\ stdout (print String (@PrintableValueAdapter String "seven") w1) = "seven")
  /\ clone Brittle (fun _ => false) (@PrintableValueAdapter Brittle "") (@World Brittle "" ∅)
     = Throws T_exception (@World Brittle "" ∅).
Proof.
  split.
  - pose proof (clone_same_value String (fun _ => false)
                  (@PrintableValueAdapter String "seven") (@World String "" ∅)) as H.
    destruct (clone String _ _ _) as [p w1|e w1] eqn:E;
      [|vm_compute in E; discriminate].
    destruct H as (l & o & -> & _ & _ & Hout & _ & _).
    + split; [intros x c [= ->]; reflexivity|intros x; reflexivity].
    + exists l, w1. split; [reflexivity|].
      simpl. by rewrite Hout.
  - pose proof (clone_same_value Brittle (fun _ => false)
                  (@PrintableValueAdapter Brittle "") (@World Brittle "" ∅)) as H.
    destruct (clone Brittle _ _ _) as [p w1|e w1] eqn:E;
      [vm_compute in E; discriminate|].
    destruct H as (-> & [[_ Hoom]|(-> & _)]).
    + split; [|intros x; reflexivity].
      intros x c. simpl. case_decide; [done|].
      by intros [= ->].
    + discriminate.
    + reflexivity.
Defined.

End AdapterFacts.

Module TraitsFacts.
Import Traits.

(** X15. [lib::is_printable] tells nothing that [ttl::is_semiregular]
    does not: for every type (an object type being one to which
    references can be formed) the two traits agree, because the call
    [lib::print(obj)] that the trait tests is well formed, with type
    [void], for every operand. *)
Theorem printable_is_semiregular (T : type_info) :
  (is_object T = true -> is_referenceable T = true) ->
  is_printable T = is_semiregular T.
Proof.
  intros Href. unfold is_printable, lib_print_t.
  destruct (is_semiregular T) eqn:Hs; [|done]. simpl.
  assert (is_object T = true) as Hobj.
  { unfold is_semiregular, is_copyable, is_movable in Hs.
    repeat (apply andb_true_iff in Hs as [Hs _]). done. }
  by rewrite (Href Hobj).
Qed.

Lemma printable_is_semiregular_witness :
  is_printable regular_class = true
  /\ is_printable regular_class = is_semiregular regular_class.
Proof.
  split; [reflexivity|].
  apply (printable_is_semiregular regular_class). reflexivity.
Defined.

End TraitsFacts.
